(** * distributed-kv-store: the in-memory store and the notification registry

    A shallow embedding of [internal/service/service.go] in the revision
    that has the notification registry: the gRPC handlers [Get], [Set] and
    [Subscribe] of [KVStoreService], the fan-out [notifySubscribers] and the
    clean-up [removeSubscriber]. The earlier revision of the same file,
    which has the store alone, is [StoreOnly]. [getEnv] of
    [cmd/server/main.go] and the command-line client of
    [cmd/client/main.go] come after them. The properties of the design
    document follow the definitions, and after those further properties of
    the code.

    Conventions.
    - [sync.Map] is linearizable and every access to [subscribers] happens
      under [mu]: a [Get], a [Set] (its write and its fan-out), the
      registration of [Subscribe], one turn of its streaming loop and its
      deferred clean-up are each one transition of the state.
    - [*subscriber] values are addresses into [heap]; a buffered channel is
      the list of its pending elements, its capacity and its closed flag.
    - A Go panic (send on a closed channel, dangling address) is [None].
    - [time.Now().UnixMilli()] is an input of [Set_]. *)

From Stdlib Require Import ZArith.
From stdpp Require Import base option list strings gmap fin_maps.

(** ** Messages of the [pb] package *)

Module pb.

(** Modelled from the spec: the enum of [proto/store.proto], whose generated
    code is not in the repository ("currently only SET; schema allows future
    DELETE"). *)
Inductive ChangeEvent_ChangeType : Type :=
| ChangeEvent_SET
| ChangeEvent_DELETE.

Module ChangeEvent.
(** Modelled from the spec: the four fields of a change event ([changeType],
    [key], [value], [timestamp]), named as [Set] writes them. *)
Record t : Type := mk
  { ChangeType : ChangeEvent_ChangeType;
    Key : string;
    Value : string;
    Timestamp : Z }.
End ChangeEvent.

Module GetRequest.
(** Modelled from the spec: [Get(key: string)]. *)
Record t : Type := mk { Key : string }.
End GetRequest.

Module GetResponse.
(** Modelled from the spec: [(value: string, found: bool)]. *)
Record t : Type := mk { Value : string; Found : bool }.
End GetResponse.

Module SetRequest.
(** Modelled from the spec: [Set(key: string, value: string)]. *)
Record t : Type := mk { Key : string; Value : string }.
End SetRequest.

Module SetResponse.
(** Modelled from the spec: [(success: bool, message: string)]. *)
Record t : Type := mk { Success : bool; Message : string }.
End SetResponse.

Module SubscribeRequest.
(** Modelled from the spec: [Subscribe(prefix: string)]; the field is named
    [KeyPattern] as [Subscribe] reads it. *)
Record t : Type := mk { KeyPattern : string }.
End SubscribeRequest.

End pb.

(** ** gRPC status errors *)

Module codes.
(** The two codes of [google.golang.org/grpc/codes] the service uses. *)
Inductive Code : Type :=
| InvalidArgument
| Internal.
End codes.

(** A Go [error]: either built by [status.Error], or whatever the transport
    returned from [stream.Send]. *)
Inductive error : Type :=
| status_Error (c : codes.Code) (msg : string)
| transport_error (msg : string).

(** The pair [(resp, err)] a handler returns: [err == nil] is [Ok]. *)
Inductive result (A : Type) : Type :=
| Ok (resp : A)
| Err (err : error).
Arguments Ok {A} resp.
Arguments Err {A} err.

(** ** The state *)

(** A value of Go's [any], as [sync.Map] holds it: a string, or a value of
    some other dynamic type. *)
Inductive any : Type :=
| any_string (s : string)
| any_other (dyn : positive).

(** [chan *pb.ChangeEvent] made with [make(chan _, cap)]. *)
Record chan : Type := mkChan
  { buf : list pb.ChangeEvent.t;
    cap : nat;
    closed : bool }.

Definition make_chan (n : nat) : chan :=
  {| buf := []; cap := n; closed := false |}.

(** The address of a [subscriber] object. *)
Abbreviation loc := nat.

(** [type subscriber struct]. The [stream] is represented by the events the
    transport has accepted from [stream.Send] so far. *)
Record subscriber : Type := mkSubscriber
  { pattern : string;
    stream : list pb.ChangeEvent.t;
    events : chan }.

(** [type KVStoreService struct], together with the subscriber objects its
    addresses point to. [mu] is accounted for by atomicity. *)
Record KVStoreService : Type := mkService
  { store : gmap string any;
    subscribers : gmap string (list loc);
    subID : Z;
    heap : list subscriber }.

Definition set_store (f : gmap string any → gmap string any)
    (s : KVStoreService) : KVStoreService :=
  {| store := f (store s); subscribers := subscribers s;
     subID := subID s; heap := heap s |}.

Definition set_subscribers (f : gmap string (list loc) → gmap string (list loc))
    (s : KVStoreService) : KVStoreService :=
  {| store := store s; subscribers := f (subscribers s);
     subID := subID s; heap := heap s |}.

Definition set_heap (f : list subscriber → list subscriber)
    (s : KVStoreService) : KVStoreService :=
  {| store := store s; subscribers := subscribers s;
     subID := subID s; heap := f (heap s) |}.

Definition set_events (c : chan) (sub : subscriber) : subscriber :=
  {| pattern := pattern sub; stream := stream sub; events := c |}.

(** [NewKVStoreService]: an empty [sync.Map], [make(map[string][]*subscriber)],
    the zero [subID]; no subscriber object exists yet. *)
Definition NewKVStoreService : KVStoreService :=
  {| store := ∅; subscribers := ∅; subID := 0; heap := [] |}.

(** ** Go primitives used by the service *)

(** [strings.HasPrefix(s, prefix)]:
    [len(s) >= len(prefix) && s[:len(prefix)] == prefix]. *)
Definition HasPrefix (s prefix : string) : bool :=
  (String.length prefix <=? String.length s)%nat
  && bool_decide (String.substring 0 (String.length prefix) s = prefix).

(** [m[k]] on a map of slices: the nil slice when [k] is absent. *)
Definition map_index (m : gmap string (list loc)) (k : string) : list loc :=
  default [] (m !! k).

(** [select { case c <- ev: ...; default: ... }]: the element is appended
    when the buffer has room ([true]), dropped otherwise ([false]); sending
    on a closed channel panics. *)
Definition chan_trySend (ev : pb.ChangeEvent.t) (c : chan) : option (chan * bool) :=
  if closed c then None
  else if decide (length (buf c) < cap c)
       then Some ({| buf := buf c ++ [ev]; cap := cap c; closed := closed c |}, true)
       else Some (c, false).

(** [<-c] when an element is ready. *)
Definition chan_recv (c : chan) : option (pb.ChangeEvent.t * chan) :=
  match buf c with
  | [] => None
  | ev :: rest => Some (ev, {| buf := rest; cap := cap c; closed := closed c |})
  end.

(** [close(c)]; closing twice panics. *)
Definition chan_close (c : chan) : option chan :=
  if closed c then None
  else Some {| buf := buf c; cap := cap c; closed := true |}.

(** ** [Get] *)

Definition Get (req : pb.GetRequest.t) (s : KVStoreService)
    : result pb.GetResponse.t :=
  if decide (pb.GetRequest.Key req = "")
  then Err (status_Error codes.InvalidArgument "key cannot be empty")
  else
    match store s !! pb.GetRequest.Key req with
    | None => Ok {| pb.GetResponse.Value := ""; pb.GetResponse.Found := false |}
    | Some value =>
        match value with
        | any_string valueStr =>
            Ok {| pb.GetResponse.Value := valueStr; pb.GetResponse.Found := true |}
        | any_other _ =>
            Err (status_Error codes.Internal "internal storage error")
        end
    end.

(** ** [notifySubscribers] *)

(** One iteration of the inner loop: the non-blocking send to [sub.events],
    counting the sends that went through. *)
Definition notify_one (event : pb.ChangeEvent.t) (sub : loc)
    (st : list subscriber * Z) : option (list subscriber * Z) :=
  match st.1 !! sub with
  | None => None
  | Some o =>
      match chan_trySend event (events o) with
      | None => None
      | Some (c, sent) =>
          Some (<[sub := set_events c o]> st.1,
                if sent then (st.2 + 1)%Z else st.2)
      end
  end.

(** [for _, sub := range subs]. *)
Fixpoint notify_subs (event : pb.ChangeEvent.t) (subs : list loc)
    (st : list subscriber * Z) : option (list subscriber * Z) :=
  match subs with
  | [] => Some st
  | sub :: rest =>
      match notify_one event sub st with
      | None => None
      | Some st' => notify_subs event rest st'
      end
  end.

(** The body of the outer loop for one map entry. *)
Definition notify_entry (event : pb.ChangeEvent.t) (entry : string * list loc)
    (st : list subscriber * Z) : option (list subscriber * Z) :=
  if HasPrefix (pb.ChangeEvent.Key event) entry.1
  then notify_subs event entry.2 st
  else Some st.

(** [for pattern, subs := range s.subscribers], in the order [entries]. *)
Fixpoint notify_range (event : pb.ChangeEvent.t)
    (entries : list (string * list loc))
    (st : list subscriber * Z) : option (list subscriber * Z) :=
  match entries with
  | [] => Some st
  | entry :: rest =>
      match notify_entry event entry st with
      | None => None
      | Some st' => notify_range event rest st'
      end
  end.

(** [notifySubscribers]: the new state and [notifiedCount]. Go ranges over a
    map in an unspecified order; [notify_range_Permutation] below shows that
    the order does not matter. *)
Definition notifySubscribers (event : pb.ChangeEvent.t) (s : KVStoreService)
    : option (KVStoreService * Z) :=
  match notify_range event (map_to_list (subscribers s)) (heap s, 0%Z) with
  | None => None
  | Some (h, notifiedCount) => Some (set_heap (λ _, h) s, notifiedCount)
  end.

(** ** [Set] *)

(** [s.store.Store(key, value)]. *)
Definition store_Store (key : string) (value : any) (s : KVStoreService)
    : KVStoreService :=
  set_store (λ m, <[key := value]> m) s.

(** The event [Set] builds after the write; [now] is
    [time.Now().UnixMilli()]. *)
Definition change_event (now : Z) (req : pb.SetRequest.t) : pb.ChangeEvent.t :=
  {| pb.ChangeEvent.ChangeType := pb.ChangeEvent_SET;
     pb.ChangeEvent.Key := pb.SetRequest.Key req;
     pb.ChangeEvent.Value := pb.SetRequest.Value req;
     pb.ChangeEvent.Timestamp := now |}.

Definition Set_ (now : Z) (req : pb.SetRequest.t) (s : KVStoreService)
    : option (result pb.SetResponse.t * KVStoreService) :=
  if decide (pb.SetRequest.Key req = "")
  then Some (Err (status_Error codes.InvalidArgument "key cannot be empty"), s)
  else
    let s1 := store_Store (pb.SetRequest.Key req)
                (any_string (pb.SetRequest.Value req)) s in
    let event := change_event now req in
    match notifySubscribers event s1 with
    | None => None
    | Some (s2, _) =>
        Some (Ok {| pb.SetResponse.Success := true;
                    pb.SetResponse.Message := "key stored successfully" |}, s2)
    end.

(** ** [removeSubscriber] *)

(** [for i, existingSub := range subs { if existingSub == sub { ...; break } }]:
    the index at which the loop body fires, if it does. Addresses are
    compared, not the objects they point to. *)
Fixpoint range_find (sub : loc) (subs : list loc) (i : nat) : option nat :=
  match subs with
  | [] => None
  | existingSub :: rest =>
      if decide (existingSub = sub) then Some i
      else range_find sub rest (S i)
  end.

(** The registry after [removeSubscriber(pattern, sub)]. *)
Definition remove_from (pattern : string) (sub : loc)
    (m : gmap string (list loc)) : gmap string (list loc) :=
  let subs := map_index m pattern in
  let m1 :=
    match range_find sub subs 0 with
    | Some i => <[pattern := take i subs ++ drop (S i) subs]> m
    | None => m
    end in
  if decide (length (map_index m1 pattern) = 0)
  then delete pattern m1
  else m1.

Definition removeSubscriber (pattern : string) (sub : loc)
    (s : KVStoreService) : KVStoreService :=
  set_subscribers (remove_from pattern sub) s.

(** ** [Subscribe] *)

(** The queue capacity in [make(chan *pb.ChangeEvent, 100)]. *)
Definition queue_capacity : nat := 100.

(** From the entry of [Subscribe] to the release of [mu]: validation,
    allocation of the subscriber and registration. The handler then holds
    the address of its subscriber. *)
Definition Subscribe_register (req : pb.SubscribeRequest.t)
    (s : KVStoreService) : result loc * KVStoreService :=
  if decide (pb.SubscribeRequest.KeyPattern req = "")
  then (Err (status_Error codes.InvalidArgument "key_pattern cannot be empty"), s)
  else
    let sub := length (heap s) in
    let o := {| pattern := pb.SubscribeRequest.KeyPattern req;
                stream := [];
                events := make_chan queue_capacity |} in
    let s1 := set_heap (λ h, h ++ [o]) s in
    (Ok sub,
     set_subscribers
       (λ m, <[pb.SubscribeRequest.KeyPattern req :=
                 map_index m (pb.SubscribeRequest.KeyPattern req) ++ [sub]]> m)
       s1).

(** The deferred function: [removeSubscriber(req.KeyPattern, sub)], then
    [close(sub.events)]. *)
Definition Subscribe_cleanup (sub : loc) (s : KVStoreService)
    : option KVStoreService :=
  match heap s !! sub with
  | None => None
  | Some o =>
      let s1 := removeSubscriber (pattern o) sub s in
      match chan_close (events o) with
      | None => None
      | Some c => Some (set_heap (λ h, <[sub := set_events c o]> h) s1)
      end
  end.

(** What one turn of the [select] in the streaming loop meets. *)
Inductive select_case : Type :=
| SendOk                      (* an event is received and [stream.Send] succeeds *)
| SendErr (msg : string)      (* an event is received and [stream.Send] fails *)
| ContextDone.                (* [stream.Context().Done()] fires *)

(** One turn of the loop of the handler that owns [sub]. [Ok true] means the
    loop goes on; the two returning cases run the deferred clean-up. A case
    that is not ready (empty queue), or a handler that has already returned
    (closed queue), has no turn: [None]. *)
Definition Subscribe_turn (sub : loc) (c : select_case) (s : KVStoreService)
    : option (result bool * KVStoreService) :=
  match heap s !! sub with
  | None => None
  | Some o =>
      if closed (events o) then None
      else
        match c with
        | ContextDone =>
            s' ← Subscribe_cleanup sub s; Some (Ok false, s')
        | SendOk =>
            '(event, q) ← chan_recv (events o);
            Some (Ok true,
                  set_heap (λ h, <[sub := {| pattern := pattern o;
                                             stream := stream o ++ [event];
                                             events := q |}]> h) s)
        | SendErr msg =>
            '(event, q) ← chan_recv (events o);
            s' ← Subscribe_cleanup sub
                   (set_heap (λ h, <[sub := set_events q o]> h) s);
            Some (Err (transport_error msg), s')
        end
  end.

(** ** Runs of the service *)

(** The atomic operations clients and handlers perform. *)
Inductive op : Type :=
| OpGet (req : pb.GetRequest.t)
| OpSet (now : Z) (req : pb.SetRequest.t)
| OpSubscribe (req : pb.SubscribeRequest.t)
| OpTurn (sub : loc) (c : select_case).

Definition exec (o : op) (s : KVStoreService) : option KVStoreService :=
  match o with
  | OpGet _ => Some s
  | OpSet now req => snd <$> Set_ now req s
  | OpSubscribe req => Some (Subscribe_register req s).2
  | OpTurn sub c => snd <$> Subscribe_turn sub c s
  end.

Fixpoint run (ops : list op) (s : KVStoreService) : option KVStoreService :=
  match ops with
  | [] => Some s
  | o :: rest =>
      match exec o s with
      | None => None
      | Some s' => run rest s'
      end
  end.

(** [o] is a completed write of the key [k]. *)
Definition writes_key (k : string) (o : op) : Prop :=
  match o with
  | OpSet _ req => pb.SetRequest.Key req = k
  | _ => False
  end.

(** The states the service can be in. *)
Definition reachable (s : KVStoreService) : Prop :=
  ∃ ops, run ops NewKVStoreService = Some s.

(** Registrations and removals alone, the removals with any pattern and
    any address, not only those a returning handler passes. *)
Inductive registry_op : Type :=
| RegSubscribe (req : pb.SubscribeRequest.t)
| RegRemove (pattern : string) (sub : loc).

Definition exec_registry (o : registry_op) (s : KVStoreService)
    : KVStoreService :=
  match o with
  | RegSubscribe req => (Subscribe_register req s).2
  | RegRemove pattern sub => removeSubscriber pattern sub s
  end.

Definition run_registry (ops : list registry_op) (s : KVStoreService)
    : KVStoreService :=
  foldl (λ s o, exec_registry o s) s ops.

(** A writer that issues the requests one after the other, nothing else
    running in between; the responses it gets, in order. *)
Fixpoint Set_all (reqs : list (Z * pb.SetRequest.t)) (s : KVStoreService)
    : option (list (result pb.SetResponse.t) * KVStoreService) :=
  match reqs with
  | [] => Some ([], s)
  | (now, req) :: rest =>
      match Set_ now req s with
      | None => None
      | Some (r, s1) =>
          match Set_all rest s1 with
          | None => None
          | Some (rs, s2) => Some (r :: rs, s2)
          end
      end
  end.

(** The one response [Set] gives when it does not fail. *)
Definition key_stored : pb.SetResponse.t :=
  {| pb.SetResponse.Success := true;
     pb.SetResponse.Message := "key stored successfully" |}.

(** ** Vocabulary of the properties *)

(** What the [select] leaves in an open queue: the event at the tail when
    there is room, the queue as it was otherwise. *)
Definition enqueue (ev : pb.ChangeEvent.t) (c : chan) : chan :=
  if decide (length (buf c) < cap c)
  then {| buf := buf c ++ [ev]; cap := cap c; closed := closed c |}
  else c.

Definition deliver (ev : pb.ChangeEvent.t) (o : subscriber) : subscriber :=
  set_events (enqueue ev (events o)) o.

(** The subscribers the loops attempt a send to, in loop order: those of
    the entries whose key is a prefix of the event's key. *)
Fixpoint targets (ev : pb.ChangeEvent.t) (entries : list (string * list loc))
    : list loc :=
  match entries with
  | [] => []
  | entry :: rest =>
      (if HasPrefix (pb.ChangeEvent.Key ev) entry.1 then entry.2 else [])
      ++ targets ev rest
  end.

(** The slice [removeSubscriber] leaves for its pattern: the first element
    equal to [sub] cut out, or the slice as it was. *)
Definition remove_first (sub : loc) (subs : list loc) : list loc :=
  match range_find sub subs 0 with
  | Some i => take i subs ++ drop (S i) subs
  | None => subs
  end.

(** What every state of a run satisfies: registered addresses point to
    subscriber objects that carry the pattern they are registered under and
    whose queue is open; no slice of the registry repeats an address or is
    empty; the store holds strings; queues have the capacity of [Subscribe]
    and never hold more. *)
Record wf (s : KVStoreService) : Prop := mk_wf
  { wf_registered : ∀ pat subs sub,
      subscribers s !! pat = Some subs → sub ∈ subs →
      ∃ o, heap s !! sub = Some o ∧ pattern o = pat ∧ closed (events o) = false;
    wf_NoDup : ∀ pat subs, subscribers s !! pat = Some subs → NoDup subs;
    wf_nonempty : ∀ pat subs, subscribers s !! pat = Some subs → subs ≠ [];
    wf_strings : ∀ k v, store s !! k = Some v → ∃ str, v = any_string str;
    wf_queue : ∀ sub o,
      heap s !! sub = Some o →
      pattern o ≠ ""
      ∧ cap (events o) = queue_capacity
      ∧ length (buf (events o)) ≤ queue_capacity }.

(** Between [s] and [s'] no queue has gained an event: a queue of [s'] is
    what is left of the queue [s] had at that address, or is the empty
    queue of a new subscriber. *)
Definition no_publish (s s' : KVStoreService) : Prop :=
  ∀ sub o',
    heap s' !! sub = Some o' →
    match heap s !! sub with
    | Some o => buf (events o') `suffix_of` buf (events o)
    | None => buf (events o') = []
    end.

(** ** The service before the registry was added *)

(** [internal/service/service.go] in the revision whose [KVStoreService]
    has only [mu] and [store], and whose [Subscribe] is still to be
    written: [Get] and [Set] work on the store alone. *)
Module StoreOnly.

Definition Get (req : pb.GetRequest.t) (store : gmap string any)
    : result pb.GetResponse.t :=
  if decide (pb.GetRequest.Key req = "")
  then Err (status_Error codes.InvalidArgument "key cannot be empty")
  else
    match store !! pb.GetRequest.Key req with
    | None => Ok {| pb.GetResponse.Value := ""; pb.GetResponse.Found := false |}
    | Some value =>
        match value with
        | any_string valueStr =>
            Ok {| pb.GetResponse.Value := valueStr;
                  pb.GetResponse.Found := true |}
        | any_other _ =>
            Err (status_Error codes.Internal "internal storage error")
        end
    end.

Definition Set_ (req : pb.SetRequest.t) (store : gmap string any)
    : result pb.SetResponse.t * gmap string any :=
  if decide (pb.SetRequest.Key req = "")
  then (Err (status_Error codes.InvalidArgument "key cannot be empty"), store)
  else
    (Ok {| pb.SetResponse.Success := true;
           pb.SetResponse.Message := "key stored successfully" |},
     <[pb.SetRequest.Key req := any_string (pb.SetRequest.Value req)]> store).

(** [Subscribe] returns [nil] at once. *)
Definition Subscribe (req : pb.SubscribeRequest.t) : option error := None.

End StoreOnly.

(** ** More vocabulary: subscribers that are being served *)

(** Every subscriber whose queue is open, that is whose handler has not
    returned, is in the slice of its pattern. *)
Definition live_registered (s : KVStoreService) : Prop :=
  ∀ sub o,
    heap s !! sub = Some o → closed (events o) = false →
    sub ∈ map_index (subscribers s) (pattern o).

(** The store after the same operations in the revision without registry:
    only [Set] touches it. *)
Definition StoreOnly_exec (o : op) (st : gmap string any) : gmap string any :=
  match o with
  | OpSet _ req => (StoreOnly.Set_ req st).2
  | _ => st
  end.

Definition StoreOnly_run (ops : list op) (st : gmap string any)
    : gmap string any :=
  foldl (λ st o, StoreOnly_exec o st) st ops.

(** ** [cmd/server/main.go]: configuration *)

(** [os.Getenv] on the environment [env]: the empty string when the
    variable is not set. *)
Definition os_Getenv (env : gmap string string) (key : string) : string :=
  default "" (env !! key).

Definition getEnv (env : gmap string string) (key defaultValue : string)
    : string :=
  let value := os_Getenv env key in
  if decide (value ≠ "") then value else defaultValue.

Definition defaultGRPCPort : string := "50051".
Definition defaultHTTPPort : string := "8080".

(** The address [main] listens on: [fmt.Sprintf(":%s", grpcPort)]. *)
Definition listen_address (env : gmap string string) : string :=
  ":" +:+ getEnv env "GRPC_PORT" defaultGRPCPort.

(** ** [cmd/client/main.go] *)

(** The line feed of the format strings. *)
Definition nl : string := String (Ascii.ascii_of_nat 10) EmptyString.

(** How a run of the client ends: it returns, it calls [os.Exit] after
    writing to standard error, it dies in [log.Fatal] (which exits with
    status 1), or it is still waiting in [stream.Recv]. [stdout] has one
    element for each [fmt.Printf] or [fmt.Println]. *)
Inductive outcome : Type :=
| Returned (stdout : list string)
| Exited (stdout stderr : list string) (code : Z)
| Fatal (stdout : list string) (msg : string)
| Waiting (stdout : list string).

(** What one [stream.Recv] returns. *)
Inductive recv : Type :=
| Recv_event (event : pb.ChangeEvent.t)
| Recv_EOF
| Recv_error (err : error).

(** [pb.KeyValueStoreClient]: what each remote call returns to the client,
    transport failures and time-outs included; a subscription is the
    results of its successive [Recv] calls. *)
Record KeyValueStoreClient : Type := mkClient
  { client_Get : pb.GetRequest.t → result pb.GetResponse.t;
    client_Set : pb.SetRequest.t → result pb.SetResponse.t;
    client_Subscribe : pb.SubscribeRequest.t → result (list recv) }.

(** The command-line flags after [flag.Parse]. *)
Record flags : Type := mkFlags
  { serverAddr : string;
    operation : string;
    key : string;
    value : string;
    pattern_flag : string }.

(** The output written so far, put in front of what follows. *)
Definition after (out : list string) (o : outcome) : outcome :=
  match o with
  | Returned stdout => Returned (out ++ stdout)
  | Exited stdout stderr code => Exited (out ++ stdout) stderr code
  | Fatal stdout msg => Fatal (out ++ stdout) msg
  | Waiting stdout => Waiting (out ++ stdout)
  end.

Section client.

(** [err.Error()], as [%v] prints an error. *)
Variable Error : error → string.
(** [time.UnixMilli(ts).Format(time.RFC3339)], in the local time zone. *)
Variable Format : Z → string.
(** [String()] of the generated enum. *)
Variable ChangeType_String : pb.ChangeEvent_ChangeType → string.
(** What [flag.Usage] writes to standard error. *)
Variable Usage : list string.

Definition executeGet (client : KeyValueStoreClient) (key : string) : outcome :=
  if decide (key = "")
  then Fatal [] "Error: -key flag is required for get operation"
  else
    match client_Get client {| pb.GetRequest.Key := key |} with
    | Err err => Fatal [] ("Get failed: " +:+ Error err)
    | Ok resp =>
        if pb.GetResponse.Found resp
        then Returned ["Key found" +:+ nl;
                       "  Key:   " +:+ key +:+ nl;
                       "  Value: " +:+ pb.GetResponse.Value resp +:+ nl]
        else Returned ["Key not found: " +:+ key +:+ nl]
    end.

Definition executeSet (client : KeyValueStoreClient) (key value : string)
    : outcome :=
  if decide (key = "")
  then Fatal [] "Error: -key flag is required for set operation"
  else
    match client_Set client {| pb.SetRequest.Key := key;
                               pb.SetRequest.Value := value |} with
    | Err err => Fatal [] ("Set failed: " +:+ Error err)
    | Ok resp =>
        if pb.SetResponse.Success resp
        then Returned ["Key stored successfully" +:+ nl;
                       "  Key:   " +:+ key +:+ nl;
                       "  Value: " +:+ value +:+ nl;
                       "  Message: " +:+ pb.SetResponse.Message resp +:+ nl]
        else Returned ["Set failed: " +:+ pb.SetResponse.Message resp +:+ nl]
    end.

(** What the loop prints for one event. *)
Definition print_event (event : pb.ChangeEvent.t) : list string :=
  ["─────────────────────────────────────────" +:+ nl;
   "Event: " +:+ ChangeType_String (pb.ChangeEvent.ChangeType event) +:+ nl;
   "  Key:       " +:+ pb.ChangeEvent.Key event +:+ nl;
   "  Value:     " +:+ pb.ChangeEvent.Value event +:+ nl;
   "  Timestamp: " +:+ Format (pb.ChangeEvent.Timestamp event) +:+ nl;
   nl].

(** The [for] loop of [executeSubscribe] on a stream whose [Recv] calls
    return [stream], having printed [out]. *)
Fixpoint receive (stream : list recv) (out : list string) : outcome :=
  match stream with
  | [] => Waiting out
  | Recv_EOF :: _ => Returned (out ++ ["Stream closed by server" +:+ nl])
  | Recv_error err :: _ => Fatal out ("Error receiving event: " +:+ Error err)
  | Recv_event event :: rest => receive rest (out ++ print_event event)
  end.

Definition executeSubscribe (client : KeyValueStoreClient) (pattern : string)
    : outcome :=
  if decide (pattern = "")
  then Fatal [] "Error: -pattern flag is required for subscribe operation"
  else
    match client_Subscribe client
            {| pb.SubscribeRequest.KeyPattern := pattern |} with
    | Err err => Fatal [] ("Subscribe failed: " +:+ Error err)
    | Ok stream =>
        receive stream
          ["Subscribed to pattern: " +:+ pattern +:+ nl;
           "Listening for changes (Ctrl+C to exit)" +:+ nl +:+ nl]
    end.

(** [main] after [flag.Parse]; [NewClient] is [grpc.NewClient] followed by
    [pb.NewKeyValueStoreClient]. *)
Definition main (NewClient : string → result KeyValueStoreClient) (f : flags)
    : outcome :=
  if decide (operation f = "")
  then Exited [] (("Error: -op flag is required" +:+ nl +:+ nl) :: Usage) 1
  else
    match NewClient (serverAddr f) with
    | Err err => Fatal [] ("Failed to connect to server: " +:+ Error err)
    | Ok client =>
        after ["Connected to server: " +:+ serverAddr f +:+ nl]
          (if decide (operation f = "get") then executeGet client (key f)
           else if decide (operation f = "set")
                then executeSet client (key f) (value f)
           else if decide (operation f = "subscribe")
                then executeSubscribe client (pattern_flag f)
           else Exited []
                  ["Error: invalid operation '" +:+ operation f
                   +:+ "'. Must be: get, set, or subscribe" +:+ nl] 1)
    end.

End client.

(** ** Example states *)

(** One handler subscribed to ["user:"], nothing published yet. *)
Definition one_subscriber : KVStoreService :=
  {| store := ∅;
     subscribers := {[ "user:"%string := [0] ]};
     subID := 0;
     heap := [ {| pattern := "user:"; stream := [];
                  events := make_chan queue_capacity |} ] |}.

(** Two handlers, subscribed to ["user:"] and to ["user:1"] in this order. *)
Definition two_subscribers : KVStoreService :=
  {| store := ∅;
     subscribers := {[ "user:"%string := [0]; "user:1"%string := [1] ]};
     subID := 0;
     heap := [ {| pattern := "user:"; stream := [];
                  events := make_chan queue_capacity |};
               {| pattern := "user:1"; stream := [];
                  events := make_chan queue_capacity |} ] |}.

(** * Properties *)

(** ** Prefix comparison *)

Lemma substring_0_0 (s : string) : String.substring 0 0 s = "".
Proof. by destruct s. Qed.

Lemma HasPrefix_empty (s : string) : HasPrefix s "" = true.
Proof.
  unfold HasPrefix. simpl. rewrite substring_0_0. by rewrite bool_decide_eq_true_2.
Qed.

Lemma HasPrefix_nil_cons (a : Ascii.ascii) (p : string) :
  HasPrefix "" (String a p) = false.
Proof. done. Qed.

Lemma HasPrefix_cons (a b : Ascii.ascii) (s p : string) :
  HasPrefix (String a s) (String b p) = bool_decide (a = b) && HasPrefix s p.
Proof.
  unfold HasPrefix. simpl.
  destruct (String.length p <=? String.length s)%nat eqn:Hlen; simpl.
  - destruct (decide (a = b)) as [->|Hab].
    + rewrite (bool_decide_eq_true_2 (b = b)) by done. simpl.
      apply bool_decide_ext. split; [by intros [= ->]|by intros ->].
    + rewrite (bool_decide_eq_false_2 (a = b)) by done. simpl.
      apply bool_decide_eq_false_2. by intros [= ? ?].
  - by rewrite andb_false_r.
Qed.

(** [strings.HasPrefix] is the exact character-by-character comparison:
    it holds exactly when the key is the prefix followed by some rest. *)
Lemma HasPrefix_spec (s p : string) :
  HasPrefix s p = true ↔ ∃ rest, s = (p ++ rest)%string.
Proof.
  revert s. induction p as [|b p IH]; intros s.
  - split; [|intros _; apply HasPrefix_empty]. intros _. by exists s.
  - destruct s as [|a s].
    + rewrite HasPrefix_nil_cons. split; [done|]. by intros [rest ?].
    + rewrite HasPrefix_cons, andb_true_iff, bool_decide_eq_true, IH.
      split.
      * intros [-> [rest ->]]. by exists rest.
      * intros [rest [= -> ->]]. eauto.
Qed.

(** ** The non-blocking send *)

Lemma chan_trySend_open ev c :
  closed c = false →
  chan_trySend ev c = Some (enqueue ev c, bool_decide (length (buf c) < cap c)).
Proof.
  intros Hc. unfold chan_trySend, enqueue. rewrite Hc.
  case_decide.
  - by rewrite bool_decide_eq_true_2.
  - by rewrite bool_decide_eq_false_2.
Qed.

Lemma enqueue_closed ev c : closed (enqueue ev c) = closed c.
Proof. unfold enqueue. by case_decide. Qed.

Lemma enqueue_cap ev c : cap (enqueue ev c) = cap c.
Proof. unfold enqueue. by case_decide. Qed.

Lemma enqueue_bounded ev c :
  length (buf c) ≤ cap c → length (buf (enqueue ev c)) ≤ cap c.
Proof.
  unfold enqueue. case_decide; simpl; [|done].
  rewrite length_app. simpl. lia.
Qed.

(** A run of sends on one queue keeps the oldest elements, in order. *)
Lemma enqueue_foldl (evs : list pb.ChangeEvent.t) (c : chan) :
  length (buf c) ≤ cap c →
  buf (foldl (λ q ev, enqueue ev q) c evs) = take (cap c) (buf c ++ evs)
  ∧ cap (foldl (λ q ev, enqueue ev q) c evs) = cap c
  ∧ closed (foldl (λ q ev, enqueue ev q) c evs) = closed c.
Proof.
  revert c. induction evs as [|ev evs IH]; intros c Hle; simpl.
  - rewrite app_nil_r. by rewrite take_ge.
  - destruct (IH (enqueue ev c)) as (Hb & Hc & Hd).
    { rewrite enqueue_cap. by apply enqueue_bounded. }
    rewrite Hb, Hc, Hd, enqueue_cap, enqueue_closed.
    split; [|done].
    unfold enqueue. case_decide as Hlt; simpl.
    + by rewrite <- app_assoc.
    + rewrite !take_app_le by lia. done.
Qed.

(** ** The fan-out loops *)

Lemma notify_one_open ev p h n o :
  h !! p = Some o → closed (events o) = false →
  notify_one ev p (h, n) =
    Some (<[p := deliver ev o]> h,
          if bool_decide (length (buf (events o)) < cap (events o))
          then (n + 1)%Z else n).
Proof.
  intros Hp Hc. unfold notify_one. simpl. rewrite Hp.
  by rewrite (chan_trySend_open _ _ Hc).
Qed.

Lemma notify_subs_app ev ps qs st :
  notify_subs ev (ps ++ qs) st = notify_subs ev ps st ≫= notify_subs ev qs.
Proof.
  revert st. induction ps as [|p ps IH]; intros st; simpl; [done|].
  destruct (notify_one ev p st); simpl; [apply IH|done].
Qed.

Lemma notify_range_targets ev entries st :
  notify_range ev entries st = notify_subs ev (targets ev entries) st.
Proof.
  revert st. induction entries as [|[pat subs] rest IH]; intros st; simpl; [done|].
  rewrite notify_subs_app. unfold notify_entry. simpl.
  destruct (HasPrefix _ pat); simpl.
  - destruct (notify_subs ev subs st); simpl; [apply IH|done].
  - apply IH.
Qed.

Lemma elem_of_targets ev entries p :
  p ∈ targets ev entries ↔
  ∃ pat subs, (pat, subs) ∈ entries ∧ p ∈ subs
              ∧ HasPrefix (pb.ChangeEvent.Key ev) pat = true.
Proof.
  induction entries as [|[pat subs] rest IH]; simpl.
  - split; [by intros ?%elem_of_nil|]. by intros (? & ? & ?%elem_of_nil & _).
  - rewrite elem_of_app, IH. split.
    + intros [Hp|(pat' & subs' & Hin & Hp & Hm)].
      * destruct (HasPrefix _ pat) eqn:Hm; [|by apply elem_of_nil in Hp].
        exists pat, subs. split; [left|done].
      * exists pat', subs'. split; [by right|done].
    + intros (pat' & subs' & Hin & Hp & Hm).
      apply elem_of_cons in Hin as [[= -> ->]|Hin].
      * left. by rewrite Hm.
      * right. eauto.
Qed.

(** The effect of the inner loop on the subscriber objects, when no
    address is visited twice and every visited queue is open. *)
Lemma notify_subs_spec ev ps h n :
  NoDup ps →
  (∀ p, p ∈ ps → ∃ o, h !! p = Some o ∧ closed (events o) = false) →
  ∃ h' n',
    notify_subs ev ps (h, n) = Some (h', n')
    ∧ length h' = length h
    ∧ ∀ q, h' !! q = if decide (q ∈ ps) then deliver ev <$> h !! q else h !! q.
Proof.
  revert h n. induction ps as [|p ps IH]; intros h n Hnd Hopen.
  - exists h, n. split_and!; [done..|]. intros q.
    case_decide as Hq; [by apply elem_of_nil in Hq|done].
  - apply NoDup_cons in Hnd as [Hp Hnd].
    destruct (Hopen p) as (o & Ho & Hc); [left|]. simpl.
    rewrite (notify_one_open _ _ _ _ _ Ho Hc).
    edestruct (IH (<[p := deliver ev o]> h)) as (h' & n' & Hrun & Hlen & Hh');
      [done| |].
    { intros q Hq. destruct (Hopen q) as (o' & Ho' & Hc'); [by right|].
      exists o'. split; [|done].
      rewrite list_lookup_insert_ne; [done|]. by intros ->. }
    exists h', n'. split_and!; [exact Hrun|by rewrite Hlen, length_insert|].
    intros q. rewrite Hh'.
    destruct (decide (q = p)) as [->|Hne].
    + rewrite decide_False by done. rewrite decide_True by left.
      rewrite list_lookup_insert_eq by (by eapply lookup_lt_Some).
      by rewrite Ho.
    + rewrite list_lookup_insert_ne by done.
      destruct (decide (q ∈ ps)) as [Hq|Hq].
      * rewrite decide_True; [done|by apply list_elem_of_further].
      * rewrite decide_False; [done|]. rewrite elem_of_cons. by intros [?|?].
Qed.

(** ** The order of the [range] over the map does not matter *)

Lemma notify_one_comm ev p q st :
  notify_one ev p st ≫= notify_one ev q = notify_one ev q st ≫= notify_one ev p.
Proof.
  destruct (decide (p = q)) as [->|Hne]; [done|].
  destruct st as [h n]. unfold notify_one. simpl.
  destruct (h !! p) as [o|] eqn:Hp, (h !! q) as [o'|] eqn:Hq; simpl;
    [destruct (chan_trySend ev (events o)) as [[c sent]|] eqn:Hs,
              (chan_trySend ev (events o')) as [[c' sent']|] eqn:Hs'
    |destruct (chan_trySend ev (events o)) as [[c sent]|] eqn:Hs
    |destruct (chan_trySend ev (events o')) as [[c' sent']|] eqn:Hs'
    |]; simpl;
    rewrite ?list_lookup_insert_ne by done;
    rewrite ?Hp, ?Hq; simpl; rewrite ?Hs, ?Hs'; simpl; try done.
  f_equal. f_equal.
  - by apply list_insert_insert_ne.
  - destruct sent, sent'; lia.
Qed.

Lemma notify_subs_pair ev p q st :
  notify_subs ev [p; q] st = notify_one ev p st ≫= notify_one ev q.
Proof.
  simpl. destruct (notify_one ev p st) as [st'|]; simpl; [|done].
  by destruct (notify_one ev q st').
Qed.

Lemma notify_subs_Permutation ev ps qs st :
  ps ≡ₚ qs → notify_subs ev ps st = notify_subs ev qs st.
Proof.
  intros Hperm. revert st.
  induction Hperm as [|p ps qs _ IH|p q ps|ps qs rs _ IH1 _ IH2]; intros st.
  - done.
  - simpl. destruct (notify_one ev p st); [apply IH|done].
  - rewrite (notify_subs_app ev [q; p] ps), (notify_subs_app ev [p; q] ps).
    by rewrite !notify_subs_pair, notify_one_comm.
  - by rewrite IH1.
Qed.

Lemma targets_Permutation ev entries entries' :
  entries ≡ₚ entries' → targets ev entries ≡ₚ targets ev entries'.
Proof.
  induction 1 as [|e l l' _ IH|e e' l|l l' l'' _ IH1 _ IH2]; simpl.
  - done.
  - by rewrite IH.
  - rewrite !app_assoc. apply Permutation_app_tail, Permutation_app_comm.
  - by rewrite IH1.
Qed.

(** Whatever order the runtime picks for the entries of [s.subscribers],
    the loops end in the same state with the same count. *)
Lemma notify_range_Permutation ev entries entries' st :
  entries ≡ₚ entries' →
  notify_range ev entries st = notify_range ev entries' st.
Proof.
  intros Hperm. rewrite !notify_range_targets.
  by apply notify_subs_Permutation, targets_Permutation.
Qed.

(** ** Removal from a slice and from the registry *)

Lemma range_find_shift sub subs i :
  range_find sub subs (S i) = S <$> range_find sub subs i.
Proof.
  revert i. induction subs as [|x subs IH]; intros i; simpl; [done|].
  case_decide; [done|apply IH].
Qed.

Lemma remove_first_cons sub x subs :
  remove_first sub (x :: subs) =
    if decide (x = sub) then subs else x :: remove_first sub subs.
Proof.
  unfold remove_first. simpl. case_decide; [done|].
  rewrite range_find_shift. by destruct (range_find sub subs 0).
Qed.

Lemma remove_first_notin sub subs : sub ∉ subs → remove_first sub subs = subs.
Proof.
  induction subs as [|x subs IH]; [done|].
  rewrite not_elem_of_cons. intros [Hne Hnin].
  rewrite remove_first_cons, decide_False by done. by rewrite IH.
Qed.

Lemma remove_first_split sub l1 l2 :
  sub ∉ l1 → remove_first sub (l1 ++ sub :: l2) = l1 ++ l2.
Proof.
  induction l1 as [|x l1 IH]; simpl.
  - intros _. by rewrite remove_first_cons, decide_True.
  - rewrite not_elem_of_cons. intros [Hne Hnin].
    rewrite remove_first_cons, decide_False by done. by rewrite IH.
Qed.

Lemma elem_of_remove_first sub x subs : x ∈ remove_first sub subs → x ∈ subs.
Proof.
  induction subs as [|y subs IH]; [done|].
  rewrite remove_first_cons. case_decide.
  - apply list_elem_of_further.
  - rewrite !elem_of_cons. intros [->|?]; [by left|right; auto].
Qed.

Lemma remove_first_NoDup sub subs :
  NoDup subs → NoDup (remove_first sub subs) ∧ sub ∉ remove_first sub subs.
Proof.
  induction subs as [|y subs IH]; intros Hnd.
  - split; [done|]. apply not_elem_of_nil.
  - apply NoDup_cons in Hnd as [Hy Hnd].
    rewrite remove_first_cons. case_decide as Hys.
    + subst. by split.
    + destruct (IH Hnd) as [IH1 IH2]. split.
      * apply NoDup_cons. split; [|done].
        intros Hin. by apply Hy, (elem_of_remove_first sub).
      * rewrite not_elem_of_cons. split; [by intros ->|done].
Qed.

Lemma map_index_insert m pat subs : map_index (<[pat := subs]> m) pat = subs.
Proof. unfold map_index. by rewrite lookup_insert_eq. Qed.

Lemma map_index_Some m pat subs : m !! pat = Some subs → map_index m pat = subs.
Proof. unfold map_index. by intros ->. Qed.

Lemma remove_from_lookup_ne pat sub m pat' :
  pat' ≠ pat → remove_from pat sub m !! pat' = m !! pat'.
Proof.
  intros Hne. unfold remove_from.
  destruct (range_find sub (map_index m pat) 0); case_decide;
    rewrite ?lookup_delete_ne, ?lookup_insert_ne by done; done.
Qed.

Lemma remove_from_lookup_eq pat sub m :
  remove_from pat sub m !! pat =
    match remove_first sub (map_index m pat) with
    | [] => None
    | subs => Some subs
    end.
Proof.
  unfold remove_from, remove_first.
  destruct (range_find sub (map_index m pat) 0) as [i|].
  - rewrite map_index_insert.
    destruct (take i _ ++ drop (S i) _) as [|x l] eqn:Hl.
    + by rewrite decide_True, lookup_delete_eq.
    + rewrite decide_False by done. by rewrite lookup_insert_eq.
  - unfold map_index.
    destruct (m !! pat) as [[|x l]|] eqn:Hm; cbn [default length].
    + by rewrite decide_True, lookup_delete_eq.
    + by rewrite decide_False.
    + by rewrite decide_True, lookup_delete_eq.
Qed.

(** ** The invariant of the service *)

Lemma wf_New : wf NewKVStoreService.
Proof.
  split; simpl.
  - intros pat subs sub Hl. by rewrite lookup_empty in Hl.
  - intros pat subs Hl. by rewrite lookup_empty in Hl.
  - intros pat subs Hl. by rewrite lookup_empty in Hl.
  - intros k v Hl. by rewrite lookup_empty in Hl.
  - intros sub o Hl. by rewrite lookup_nil in Hl.
Qed.

Lemma targets_NoDup ev (entries : list (string * list loc))
    (owner : loc → option string) :
  NoDup entries.*1 →
  (∀ pat subs, (pat, subs) ∈ entries →
     NoDup subs ∧ ∀ sub, sub ∈ subs → owner sub = Some pat) →
  NoDup (targets ev entries).
Proof.
  induction entries as [|[pat subs] rest IH]; simpl; intros Hkeys Hent.
  - apply NoDup_nil_2.
  - apply NoDup_cons in Hkeys as [Hpat Hkeys].
    destruct (Hent pat subs) as [Hnd Hown]; [by left|].
    apply NoDup_app. split_and!.
    + destruct (HasPrefix _ pat); [done|apply NoDup_nil_2].
    + intros sub Hsub Hin.
      assert (sub ∈ subs) as Hsub'.
      { destruct (HasPrefix _ pat); [done|by apply elem_of_nil in Hsub]. }
      apply elem_of_targets in Hin as (pat' & subs' & Hin' & Hsub'' & _).
      destruct (Hent pat' subs') as [_ Hown']; [by right|].
      specialize (Hown _ Hsub'). specialize (Hown' _ Hsub'').
      assert (pat' = pat) as -> by congruence.
      apply Hpat. apply list_elem_of_fmap. by exists (pat, subs').
    + apply IH; [done|]. intros pat' subs' Hin. apply Hent. by right.
Qed.

Lemma wf_targets_NoDup ev s :
  wf s → NoDup (targets ev (map_to_list (subscribers s))).
Proof.
  intros Hwf.
  apply (targets_NoDup ev _ (λ sub, pattern <$> heap s !! sub)).
  - apply NoDup_fst_map_to_list.
  - intros pat subs Hin%elem_of_map_to_list. split.
    + by eapply wf_NoDup.
    + intros sub Hsub.
      destruct (wf_registered s Hwf _ _ _ Hin Hsub) as (o & -> & <- & _).
      done.
Qed.

(** The subscribers [notifySubscribers] sends to are exactly those
    registered under a key of the registry that is a prefix of the event's
    key. *)
Lemma elem_of_targets_registry ev s sub :
  sub ∈ targets ev (map_to_list (subscribers s)) ↔
  ∃ pat subs, subscribers s !! pat = Some subs ∧ sub ∈ subs
              ∧ HasPrefix (pb.ChangeEvent.Key ev) pat = true.
Proof.
  rewrite elem_of_targets. split.
  - intros (pat & subs & Hin%elem_of_map_to_list & ?). eauto.
  - intros (pat & subs & Hin%elem_of_map_to_list & ?). eauto.
Qed.

(** On a state that satisfies the invariant, [notifySubscribers] returns;
    it touches nothing but the queues of the subscribers it sends to. *)
Lemma notifySubscribers_spec ev s :
  wf s →
  ∃ s' n,
    notifySubscribers ev s = Some (s', n)
    ∧ store s' = store s
    ∧ subscribers s' = subscribers s
    ∧ subID s' = subID s
    ∧ length (heap s') = length (heap s)
    ∧ ∀ sub, heap s' !! sub =
        if decide (sub ∈ targets ev (map_to_list (subscribers s)))
        then deliver ev <$> heap s !! sub
        else heap s !! sub.
Proof.
  intros Hwf. unfold notifySubscribers. rewrite notify_range_targets.
  destruct (notify_subs_spec ev (targets ev (map_to_list (subscribers s)))
              (heap s) 0%Z) as (h' & n' & Hrun & Hlen & Hh').
  - by apply wf_targets_NoDup.
  - intros sub (pat & subs & Hpat & Hsub & _)%elem_of_targets_registry.
    destruct (wf_registered s Hwf _ _ _ Hpat Hsub) as (o & ? & _ & ?). eauto.
  - rewrite Hrun. by exists (set_heap (λ _, h') s), n'.
Qed.

(** ** The invariant is kept by every operation *)

Lemma wf_store_Store k str s : wf s → wf (store_Store k (any_string str) s).
Proof.
  intros [H1 H2 H3 H4 H5]. split; simpl; try done.
  intros k' v. destruct (decide (k' = k)) as [->|Hne].
  - rewrite lookup_insert_eq. intros [= <-]. eauto.
  - rewrite lookup_insert_ne by done. apply H4.
Qed.

Lemma wf_notifySubscribers ev s s' n :
  wf s → notifySubscribers ev s = Some (s', n) → wf s'.
Proof.
  intros Hwf Hrun.
  destruct (notifySubscribers_spec ev s Hwf)
    as (s'' & n'' & Hrun' & Hst & Hsubs & _ & _ & Hheap).
  rewrite Hrun in Hrun'. injection Hrun' as <- <-.
  destruct Hwf as [H1 H2 H3 H4 H5]. split.
  - intros pat subs sub. rewrite Hsubs. intros Hpat Hsub.
    destruct (H1 _ _ _ Hpat Hsub) as (o & Ho & Hp & Hc).
    rewrite Hheap, Ho. case_decide; simpl; [|eauto].
    exists (deliver ev o). split_and!; [done..|].
    simpl. by rewrite enqueue_closed.
  - intros pat subs. rewrite Hsubs. apply H2.
  - intros pat subs. rewrite Hsubs. apply H3.
  - intros k v. rewrite Hst. apply H4.
  - intros sub o'. rewrite Hheap.
    destruct (heap s !! sub) as [o|] eqn:Ho; [|by case_decide].
    destruct (H5 _ _ Ho) as (Hp & Hcap & Hlen).
    case_decide; simpl; intros [= <-]; [|done].
    simpl. rewrite enqueue_cap. split_and!; [done..|].
    rewrite <- Hcap. apply enqueue_bounded. by rewrite Hcap.
Qed.

(** Replacing a subscriber object by one with the same pattern and
    capacity and no more pending events keeps the invariant, provided its
    queue stays open or it is not registered any more. *)
Lemma wf_update sub o o' s :
  wf s → heap s !! sub = Some o →
  pattern o' = pattern o →
  cap (events o') = cap (events o) →
  length (buf (events o')) ≤ length (buf (events o)) →
  (closed (events o') = closed (events o)
   ∨ ∀ pat subs, subscribers s !! pat = Some subs → sub ∉ subs) →
  wf (set_heap (λ h, <[sub := o']> h) s).
Proof.
  intros [H1 H2 H3 H4 H5] Ho Hp Hcap Hlen Hcl. split; simpl; try done.
  - intros pat subs sub' Hpat Hsub'.
    destruct (H1 _ _ _ Hpat Hsub') as (o1 & Ho1 & Hp1 & Hc1).
    destruct (decide (sub' = sub)) as [->|Hne].
    + rewrite list_lookup_insert_eq by (by eapply lookup_lt_Some).
      destruct Hcl as [Hcl|Hcl]; [|by destruct (Hcl _ _ Hpat)].
      exists o'. assert (o1 = o) as -> by congruence.
      split_and!; [done|congruence..].
    + rewrite list_lookup_insert_ne by done. eauto.
  - intros sub' o1. destruct (decide (sub' = sub)) as [->|Hne].
    + rewrite list_lookup_insert_eq by (by eapply lookup_lt_Some).
      intros [= <-]. destruct (H5 _ _ Ho) as (? & ? & ?).
      split_and!; [congruence..|lia].
    + rewrite list_lookup_insert_ne by done. apply H5.
Qed.

Lemma wf_removeSubscriber pat sub s : wf s → wf (removeSubscriber pat sub s).
Proof.
  intros [H1 H2 H3 H4 H5]. split; simpl; try done.
  - intros pat' subs' sub'. destruct (decide (pat' = pat)) as [->|Hne].
    + rewrite remove_from_lookup_eq.
      destruct (remove_first sub (map_index (subscribers s) pat))
        as [|x l] eqn:Hrem; [done|].
      intros [= <-] Hin. rewrite <- Hrem in Hin.
      apply elem_of_remove_first in Hin. unfold map_index in Hin.
      destruct (subscribers s !! pat) as [subs|] eqn:Hpat;
        [|by apply elem_of_nil in Hin].
      by eapply H1.
    + rewrite remove_from_lookup_ne by done. apply H1.
  - intros pat' subs'. destruct (decide (pat' = pat)) as [->|Hne].
    + rewrite remove_from_lookup_eq.
      destruct (remove_first sub (map_index (subscribers s) pat))
        as [|x l] eqn:Hrem; [done|].
      intros [= <-]. rewrite <- Hrem. apply remove_first_NoDup.
      unfold map_index.
      destruct (subscribers s !! pat) as [subs|] eqn:Hpat;
        [by eapply H2|apply NoDup_nil_2].
    + rewrite remove_from_lookup_ne by done. apply H2.
  - intros pat' subs'. destruct (decide (pat' = pat)) as [->|Hne].
    + rewrite remove_from_lookup_eq.
      by destruct (remove_first sub (map_index (subscribers s) pat));
        [|intros [= <-]].
    + rewrite remove_from_lookup_ne by done. apply H3.
Qed.

(** After the removal in the deferred function, the handler's subscriber
    is registered nowhere. *)
Lemma removeSubscriber_unregistered sub o s :
  wf s → heap s !! sub = Some o →
  ∀ pat subs,
    subscribers (removeSubscriber (pattern o) sub s) !! pat = Some subs →
    sub ∉ subs.
Proof.
  intros Hwf Ho pat subs. simpl.
  destruct (decide (pat = pattern o)) as [->|Hne].
  - rewrite remove_from_lookup_eq.
    destruct (remove_first sub (map_index (subscribers s) (pattern o)))
      as [|x l] eqn:Hrem; [done|].
    intros [= <-]. rewrite <- Hrem. apply remove_first_NoDup.
    unfold map_index.
    destruct (subscribers s !! pattern o) as [subs|] eqn:Hpat;
      [by eapply wf_NoDup|apply NoDup_nil_2].
  - rewrite remove_from_lookup_ne by done. intros Hpat Hin.
    destruct (wf_registered s Hwf _ _ _ Hpat Hin) as (o' & Ho' & Hp & _).
    congruence.
Qed.

Lemma wf_Subscribe_register req s : wf s → wf (Subscribe_register req s).2.
Proof.
  intros Hwf. unfold Subscribe_register. case_decide as Hreq; [done|].
  set (pat := pb.SubscribeRequest.KeyPattern req) in *.
  destruct Hwf as [H1 H2 H3 H4 H5].
  assert (∀ pat' subs sub, subscribers s !! pat' = Some subs → sub ∈ subs →
            sub < length (heap s)) as Hlt.
  { intros pat' subs sub Hpat' Hsub.
    destruct (H1 _ _ _ Hpat' Hsub) as (o & Ho & _). by eapply lookup_lt_Some. }
  split; simpl.
  - intros pat' subs sub. destruct (decide (pat' = pat)) as [->|Hne].
    + rewrite lookup_insert_eq. intros [= <-].
      rewrite elem_of_app, list_elem_of_singleton. intros [Hin| ->].
      * unfold map_index in Hin.
        destruct (subscribers s !! pat) as [subs|] eqn:Hpat;
          [|by apply elem_of_nil in Hin].
        destruct (H1 _ _ _ Hpat Hin) as (o & Ho & Hp & Hc).
        exists o. split; [|done]. by apply lookup_app_l_Some.
      * eexists. split; [apply list_lookup_middle; done|done].
    + rewrite lookup_insert_ne by done. intros Hpat' Hsub.
      destruct (H1 _ _ _ Hpat' Hsub) as (o & Ho & Hp & Hc).
      exists o. split; [|done]. by apply lookup_app_l_Some.
  - intros pat' subs. destruct (decide (pat' = pat)) as [->|Hne].
    + rewrite lookup_insert_eq. intros [= <-].
      apply NoDup_app. unfold map_index.
      destruct (subscribers s !! pat) as [subs|] eqn:Hpat; simpl.
      * split_and!; [by eapply H2| |apply NoDup_singleton].
        intros sub Hin ->%list_elem_of_singleton.
        specialize (Hlt _ _ _ Hpat Hin). lia.
      * split_and!; [apply NoDup_nil_2| |apply NoDup_singleton].
        by intros sub ?%elem_of_nil.
    + rewrite lookup_insert_ne by done. apply H2.
  - intros pat' subs. destruct (decide (pat' = pat)) as [->|Hne].
    + rewrite lookup_insert_eq. intros [= <-].
      by destruct (map_index (subscribers s) pat).
    + rewrite lookup_insert_ne by done. apply H3.
  - done.
  - intros sub o Hsub. apply lookup_app_Some in Hsub as [Hsub|[_ Hsub]].
    + by eapply H5.
    + apply list_lookup_singleton_Some in Hsub as [_ <-]. simpl.
      split_and!; [done..|lia].
Qed.

Lemma wf_Subscribe_cleanup sub s s' :
  wf s → Subscribe_cleanup sub s = Some s' → wf s'.
Proof.
  intros Hwf. unfold Subscribe_cleanup.
  destruct (heap s !! sub) as [o|] eqn:Ho; [|done].
  unfold chan_close. destruct (closed (events o)) eqn:Hc; [done|].
  intros [= <-].
  apply (wf_update sub o); [by apply wf_removeSubscriber|done..|].
  right. by apply removeSubscriber_unregistered.
Qed.

Lemma wf_Subscribe_turn sub c s r s' :
  wf s → Subscribe_turn sub c s = Some (r, s') → wf s'.
Proof.
  intros Hwf. unfold Subscribe_turn.
  destruct (heap s !! sub) as [o|] eqn:Ho; [|done].
  destruct (closed (events o)) eqn:Hc; [done|].
  destruct c as [|msg|].
  - unfold chan_recv. destruct (buf (events o)) as [|ev q] eqn:Hb; [done|].
    simpl. intros [= <- <-].
    apply (wf_update sub o); [done..| |by left].
    simpl. rewrite Hb. simpl. lia.
  - unfold chan_recv. destruct (buf (events o)) as [|ev q] eqn:Hb; [done|].
    simpl.
    destruct (Subscribe_cleanup _ _) as [s1|] eqn:Hs1; [|done].
    simpl. intros [= <- <-].
    apply wf_Subscribe_cleanup in Hs1; [done|].
    apply (wf_update sub o); [done..| |by left].
    simpl. rewrite Hb. simpl. lia.
  - destruct (Subscribe_cleanup sub s) as [s1|] eqn:Hs1; [|done].
    simpl. intros [= <- <-]. by eapply wf_Subscribe_cleanup.
Qed.

(** [Set] returns on every state that satisfies the invariant, and keeps
    it. *)
Lemma Set_returns now req s :
  wf s → ∃ r s', Set_ now req s = Some (r, s') ∧ wf s'.
Proof.
  intros Hwf. unfold Set_. case_decide; [eauto|].
  pose proof (wf_store_Store (pb.SetRequest.Key req)
                (pb.SetRequest.Value req) s Hwf) as Hwf1.
  destruct (notifySubscribers_spec (change_event now req) _ Hwf1)
    as (s' & n & Hrun & _).
  rewrite Hrun. eexists _, s'. split; [done|].
  by eapply wf_notifySubscribers.
Qed.

Lemma wf_Set now req s r s' : wf s → Set_ now req s = Some (r, s') → wf s'.
Proof.
  intros Hwf Hset. destruct (Set_returns now req s Hwf) as (r' & s'' & Hset' & ?).
  congruence.
Qed.

Lemma wf_exec o s s' : wf s → exec o s = Some s' → wf s'.
Proof.
  intros Hwf. destruct o as [req|now req|req|sub c]; simpl.
  - by intros [= <-].
  - destruct (Set_ now req s) as [[r s1]|] eqn:Hset; [|done].
    simpl. intros [= <-]. by eapply wf_Set.
  - intros [= <-]. by apply wf_Subscribe_register.
  - destruct (Subscribe_turn sub c s) as [[r s1]|] eqn:Hturn; [|done].
    simpl. intros [= <-]. by eapply wf_Subscribe_turn.
Qed.

Lemma wf_run ops s s' : wf s → run ops s = Some s' → wf s'.
Proof.
  revert s. induction ops as [|o ops IH]; intros s Hwf; simpl.
  - by intros [= <-].
  - destruct (exec o s) as [s1|] eqn:Hexec; [|done].
    apply IH. by eapply wf_exec.
Qed.

Lemma reachable_wf s : reachable s → wf s.
Proof. intros [ops Hrun]. eapply wf_run; [apply wf_New|done]. Qed.

(** ** What each operation leaves alone *)

Lemma notifySubscribers_frame ev s s' n :
  notifySubscribers ev s = Some (s', n) →
  store s' = store s ∧ subscribers s' = subscribers s ∧ subID s' = subID s.
Proof.
  unfold notifySubscribers.
  destruct (notify_range _ _ _) as [[h c]|]; [|done]. by intros [= <- <-].
Qed.

Lemma Set_store now req s r s' :
  Set_ now req s = Some (r, s') →
  pb.SetRequest.Key req ≠ "" →
  store s' = <[pb.SetRequest.Key req := any_string (pb.SetRequest.Value req)]>
               (store s).
Proof.
  unfold Set_. intros Hset Hkey. rewrite decide_False in Hset by done.
  destruct (notifySubscribers _ _) as [[s2 n]|] eqn:Hn; [|done].
  injection Hset as <- <-.
  by destruct (notifySubscribers_frame _ _ _ _ Hn) as (-> & _).
Qed.

Lemma Set_empty_key now req s :
  pb.SetRequest.Key req = "" →
  Set_ now req s =
    Some (Err (status_Error codes.InvalidArgument "key cannot be empty"), s).
Proof. intros Hkey. unfold Set_. by rewrite decide_True. Qed.

Lemma Subscribe_cleanup_store sub s s' :
  Subscribe_cleanup sub s = Some s' → store s' = store s.
Proof.
  unfold Subscribe_cleanup. destruct (heap s !! sub) as [o|]; [|done].
  destruct (chan_close _); [|done]. by intros [= <-].
Qed.

Lemma Subscribe_turn_store sub c s r s' :
  Subscribe_turn sub c s = Some (r, s') → store s' = store s.
Proof.
  unfold Subscribe_turn. destruct (heap s !! sub) as [o|]; [|done].
  destruct (closed (events o)); [done|].
  destruct c as [|msg|].
  - destruct (chan_recv _) as [[ev q]|]; [|done]. simpl. by intros [= <- <-].
  - destruct (chan_recv _) as [[ev q]|]; [|done]. simpl.
    destruct (Subscribe_cleanup _ _) as [s1|] eqn:Hs1; [|done].
    simpl. intros [= <- <-]. by apply Subscribe_cleanup_store in Hs1.
  - destruct (Subscribe_cleanup _ _) as [s1|] eqn:Hs1; [|done].
    simpl. intros [= <- <-]. by apply Subscribe_cleanup_store in Hs1.
Qed.

Lemma Subscribe_register_store req s :
  store (Subscribe_register req s).2 = store s.
Proof. unfold Subscribe_register. by case_decide. Qed.

Lemma exec_store_other k o s s' :
  exec o s = Some s' → ¬ writes_key k o → store s' !! k = store s !! k.
Proof.
  destruct o as [req|now req|req|sub c]; simpl.
  - by intros [= <-].
  - destruct (Set_ now req s) as [[r s1]|] eqn:Hset; [|done].
    simpl. intros [= <-] Hk.
    destruct (decide (pb.SetRequest.Key req = "")) as [He|He].
    + rewrite (Set_empty_key _ _ _ He) in Hset. by injection Hset as <- <-.
    + rewrite (Set_store _ _ _ _ _ Hset He). by rewrite lookup_insert_ne.
  - intros [= <-] _. by rewrite Subscribe_register_store.
  - destruct (Subscribe_turn sub c s) as [[r s1]|] eqn:Hturn; [|done].
    simpl. intros [= <-] _. by rewrite (Subscribe_turn_store _ _ _ _ _ Hturn).
Qed.

Lemma run_store_other k ops s s' :
  run ops s = Some s' → Forall (λ o, ¬ writes_key k o) ops →
  store s' !! k = store s !! k.
Proof.
  revert s. induction ops as [|o ops IH]; intros s; simpl.
  - by intros [= <-].
  - destruct (exec o s) as [s1|] eqn:Hexec; [|done].
    intros Hrun [Ho Hops]%Forall_cons.
    rewrite (IH _ Hrun Hops). by eapply exec_store_other.
Qed.

Lemma Get_stored k v s :
  k ≠ "" → store s !! k = Some (any_string v) →
  Get (pb.GetRequest.mk k) s = Ok (pb.GetResponse.mk v true).
Proof. intros Hk Hs. unfold Get. simpl. by rewrite decide_False, Hs. Qed.

(** C1. After [Set(k, v)] has returned, [Get(k)] answers [(v, true)] after
    any further operations that do not write [k] (reads of any key, writes
    of other keys, subscriptions and deliveries), and once a later
    [Set(k, v2)] has returned it answers [(v2, true)] in the same way. *)
Theorem Get_returns_last_Set (k v v2 : string) (t t2 : Z)
    (ops ops2 : list op) (s s1 s2 s3 s4 : KVStoreService)
    (r r2 : result pb.SetResponse.t) :
  k ≠ "" →
  Set_ t (pb.SetRequest.mk k v) s = Some (r, s1) →
  Forall (λ o, ¬ writes_key k o) ops →
  run ops s1 = Some s2 →
  Set_ t2 (pb.SetRequest.mk k v2) s2 = Some (r2, s3) →
  Forall (λ o, ¬ writes_key k o) ops2 →
  run ops2 s3 = Some s4 →
  Get (pb.GetRequest.mk k) s1 = Ok (pb.GetResponse.mk v true)
  ∧ Get (pb.GetRequest.mk k) s2 = Ok (pb.GetResponse.mk v true)
  ∧ Get (pb.GetRequest.mk k) s3 = Ok (pb.GetResponse.mk v2 true)
  ∧ Get (pb.GetRequest.mk k) s4 = Ok (pb.GetResponse.mk v2 true).
Proof.
  intros Hk Hset Hops Hrun Hset2 Hops2 Hrun2.
  apply Set_store in Hset; [|done]. apply Set_store in Hset2; [|done].
  simpl in *.
  pose proof (run_store_other k _ _ _ Hrun Hops) as H2.
  pose proof (run_store_other k _ _ _ Hrun2 Hops2) as H4.
  rewrite Hset in H2. rewrite Hset2 in H4.
  rewrite lookup_insert_eq in H2, H4.
  split_and!; apply Get_stored; try done.
  - by rewrite Hset, lookup_insert_eq.
  - by rewrite Hset2, lookup_insert_eq.
Qed.

Lemma Get_returns_last_Set_witness :
  ∃ s1 s2 s3 s4 r r2,
    Set_ 1 (pb.SetRequest.mk "user:123" "Alice") NewKVStoreService = Some (r, s1)
    ∧ run [OpGet (pb.GetRequest.mk "user:123");
           OpSubscribe (pb.SubscribeRequest.mk "user:");
           OpSet 2 (pb.SetRequest.mk "order:1" "x");
           OpGet (pb.GetRequest.mk "order:1")] s1 = Some s2
    ∧ Set_ 3 (pb.SetRequest.mk "user:123" "Bob") s2 = Some (r2, s3)
    ∧ run [OpTurn 0 SendOk; OpSet 4 (pb.SetRequest.mk "user:9" "y")] s3 = Some s4
    ∧ (Get (pb.GetRequest.mk "user:123") s1 = Ok (pb.GetResponse.mk "Alice" true)
       ∧ Get (pb.GetRequest.mk "user:123") s2 = Ok (pb.GetResponse.mk "Alice" true)
       ∧ Get (pb.GetRequest.mk "user:123") s3 = Ok (pb.GetResponse.mk "Bob" true)
       ∧ Get (pb.GetRequest.mk "user:123") s4 = Ok (pb.GetResponse.mk "Bob" true)).
Proof.
  do 6 eexists.
  split; [vm_compute; reflexivity|].
  split; [vm_compute; reflexivity|].
  split; [vm_compute; reflexivity|].
  split; [vm_compute; reflexivity|].
  eapply (Get_returns_last_Set "user:123" "Alice" "Bob" 1 3
            [OpGet (pb.GetRequest.mk "user:123");
             OpSubscribe (pb.SubscribeRequest.mk "user:");
             OpSet 2 (pb.SetRequest.mk "order:1" "x");
             OpGet (pb.GetRequest.mk "order:1")]
            [OpTurn 0 SendOk; OpSet 4 (pb.SetRequest.mk "user:9" "y")]
            NewKVStoreService).
  - done.
  - vm_compute; reflexivity.
  - repeat constructor; simpl; try tauto; discriminate.
  - vm_compute; reflexivity.
  - vm_compute; reflexivity.
  - repeat constructor; simpl; try tauto; discriminate.
  - vm_compute; reflexivity.
Defined.

(** ** Fan-out by prefix *)

Lemma registered_target ev s pat subs sub o :
  wf s → subscribers s !! pat = Some subs → sub ∈ subs →
  heap s !! sub = Some o →
  pattern o = pat
  ∧ (sub ∈ targets ev (map_to_list (subscribers s))
     ↔ HasPrefix (pb.ChangeEvent.Key ev) (pattern o) = true).
Proof.
  intros Hwf Hpat Hsub Ho.
  destruct (wf_registered s Hwf _ _ _ Hpat Hsub) as (o1 & Ho1 & Hp1 & _).
  assert (o1 = o) as -> by congruence. split; [done|].
  rewrite elem_of_targets_registry. split.
  - intros (pat' & subs' & Hpat' & Hsub' & Hm).
    destruct (wf_registered s Hwf _ _ _ Hpat' Hsub') as (o2 & Ho2 & Hp2 & _).
    assert (o2 = o) as -> by congruence. by rewrite Hp2.
  - intros Hm. rewrite Hp1 in Hm. by exists pat, subs.
Qed.

(** C2. When an event is published, a send to the queue of a registered
    subscription is attempted exactly when the event's key begins with the
    subscription's prefix, character by character, whatever the order in
    which the registry is traversed; a subscription whose prefix does not
    match is left as it was. *)
Theorem publish_matches_by_prefix (ev : pb.ChangeEvent.t) (s : KVStoreService)
    (pat : string) (subs : list loc) (sub : loc) (o : subscriber) :
  reachable s →
  subscribers s !! pat = Some subs → sub ∈ subs → heap s !! sub = Some o →
  pattern o = pat
  ∧ (∀ entries, entries ≡ₚ map_to_list (subscribers s) →
       (sub ∈ targets ev entries
        ↔ HasPrefix (pb.ChangeEvent.Key ev) (pattern o) = true)
       ∧ notify_range ev entries (heap s, 0%Z)
         = notify_subs ev (targets ev entries) (heap s, 0%Z))
  ∧ (HasPrefix (pb.ChangeEvent.Key ev) (pattern o) = true
     ↔ ∃ rest, pb.ChangeEvent.Key ev = (pattern o +:+ rest))
  ∧ ∃ s' n,
      notifySubscribers ev s = Some (s', n)
      ∧ (∀ entries, entries ≡ₚ map_to_list (subscribers s) →
           notify_range ev entries (heap s, 0%Z) = Some (heap s', n))
      ∧ heap s' !! sub =
          Some (if HasPrefix (pb.ChangeEvent.Key ev) (pattern o)
                then deliver ev o else o).
Proof.
  intros Hwf%reachable_wf Hpat Hsub Ho.
  destruct (registered_target ev s pat subs sub o Hwf Hpat Hsub Ho)
    as [Hp Htarget].
  split_and!; [done| |apply HasPrefix_spec|].
  - intros entries Hperm. split; [|apply notify_range_targets].
    rewrite (targets_Permutation ev _ _ Hperm). exact Htarget.
  - destruct (notifySubscribers_spec ev s Hwf)
      as (s' & n & Hrun & _ & _ & _ & _ & Hheap).
    exists s', n. split_and!; [done| |].
    + intros entries Hperm.
      rewrite (notify_range_Permutation ev _ _ _ Hperm).
      unfold notifySubscribers in Hrun.
      destruct (notify_range _ _ _) as [[h c]|]; [|done].
      by injection Hrun as <- <-.
    + rewrite Hheap, Ho.
      destruct (HasPrefix _ (pattern o)) eqn:Hm.
      * rewrite decide_True; [done|]. by apply Htarget.
      * rewrite decide_False; [done|]. rewrite Htarget. done.
Qed.

Lemma reachable_two_subscribers : reachable two_subscribers.
Proof.
  exists [OpSubscribe (pb.SubscribeRequest.mk "user:");
          OpSubscribe (pb.SubscribeRequest.mk "user:1")].
  vm_compute. reflexivity.
Qed.

Lemma publish_matches_by_prefix_witness :
  let ev := pb.ChangeEvent.mk pb.ChangeEvent_SET "user:123" "Alice" 1 in
  let o := {| pattern := "user:"; stream := [];
              events := make_chan queue_capacity |} in
  reachable one_subscriber
  ∧ subscribers one_subscriber !! "user:"%string = Some [0]
  ∧ 0 ∈ [0]
  ∧ heap one_subscriber !! 0 = Some o
  ∧ ∃ s' n,
      notifySubscribers ev one_subscriber = Some (s', n)
      ∧ heap s' !! 0 = Some (deliver ev o).
Proof.
  intros ev o.
  assert (subscribers one_subscriber !! "user:"%string = Some [0]) as H2
    by (vm_compute; reflexivity).
  assert (0 ∈ [0]) as H3 by apply list_elem_of_here.
  assert (heap one_subscriber !! 0 = Some o) as H4 by reflexivity.
  assert (reachable one_subscriber) as H1.
  { exists [OpSubscribe (pb.SubscribeRequest.mk "user:")].
    vm_compute. reflexivity. }
  destruct (publish_matches_by_prefix ev one_subscriber "user:" [0] 0 o
              H1 H2 H3 H4)
    as (_ & _ & _ & s' & n & Hrun & _ & Hheap).
  split_and!; [done..|].
  exists s', n. split; [done|exact Hheap].
Defined.

(** ** [Set] on a state of a run *)

Lemma Set_spec now req s :
  wf s → pb.SetRequest.Key req ≠ "" →
  ∃ s',
    Set_ now req s = Some (Ok key_stored, s')
    ∧ wf s'
    ∧ store s' = <[pb.SetRequest.Key req :=
                     any_string (pb.SetRequest.Value req)]> (store s)
    ∧ subscribers s' = subscribers s
    ∧ length (heap s') = length (heap s)
    ∧ ∀ sub, heap s' !! sub =
        if decide (sub ∈ targets (change_event now req)
                           (map_to_list (subscribers s)))
        then deliver (change_event now req) <$> heap s !! sub
        else heap s !! sub.
Proof.
  intros Hwf Hkey. unfold Set_. rewrite decide_False by done.
  pose proof (wf_store_Store (pb.SetRequest.Key req)
                (pb.SetRequest.Value req) s Hwf) as Hwf1.
  destruct (notifySubscribers_spec (change_event now req) _ Hwf1)
    as (s' & n & Hrun & Hst & Hsubs & _ & Hlen & Hheap).
  rewrite Hrun. exists s'. split_and!; try done.
  by eapply wf_notifySubscribers.
Qed.

(** The queue of a registered subscriber after a run of writes that all
    match its prefix, with nothing received in between. *)
Lemma Set_all_matching reqs s pat subs sub o :
  wf s → subscribers s !! pat = Some subs → sub ∈ subs →
  heap s !! sub = Some o →
  Forall (λ r, pb.SetRequest.Key r.2 ≠ ""
               ∧ HasPrefix (pb.SetRequest.Key r.2) (pattern o) = true) reqs →
  ∃ s',
    Set_all reqs s = Some (replicate (length reqs) (Ok key_stored), s')
    ∧ wf s'
    ∧ heap s' !! sub =
        Some (set_events
                (foldl (λ q ev, enqueue ev q) (events o)
                   (map (λ r, change_event r.1 r.2) reqs)) o).
Proof.
  revert s o. induction reqs as [|[now req] reqs IH]; intros s o Hwf Hpat Hsub Ho.
  - intros _. exists s. simpl. split_and!; [done..|]. by destruct o.
  - intros [[Hkey Hm] Hall]%Forall_cons. simpl in Hkey, Hm.
    destruct (Set_spec now req s Hwf Hkey)
      as (s1 & Hset & Hwf1 & _ & Hsubs & _ & Hheap).
    specialize (Hheap sub). rewrite Ho in Hheap.
    destruct (registered_target (change_event now req) s pat subs sub o
                Hwf Hpat Hsub Ho) as [_ Htarget].
    rewrite decide_True in Hheap by (by apply Htarget). simpl in Hheap.
    destruct (IH s1 (deliver (change_event now req) o))
      as (s' & Hall' & Hwf' & Hheap'); [done|by rewrite Hsubs|done..|].
    exists s'. simpl. rewrite Hset, Hall'. done.
Qed.

Lemma chan_eta c b n d :
  buf c = b → cap c = n → closed c = d → c = {| buf := b; cap := n; closed := d |}.
Proof. destruct c. simpl. by intros -> -> ->. Qed.

Lemma Set_all_fresh_queue reqs s pat subs sub o :
  wf s → subscribers s !! pat = Some subs → sub ∈ subs →
  heap s !! sub = Some o → buf (events o) = [] →
  Forall (λ r, pb.SetRequest.Key r.2 ≠ ""
               ∧ HasPrefix (pb.SetRequest.Key r.2) (pattern o) = true) reqs →
  ∃ s',
    Set_all reqs s = Some (replicate (length reqs) (Ok key_stored), s')
    ∧ heap s' !! sub =
        Some (set_events
                {| buf := take queue_capacity
                            (map (λ r, change_event r.1 r.2) reqs);
                   cap := queue_capacity;
                   closed := false |} o).
Proof.
  intros Hwf Hpat Hsub Ho Hbuf Hall.
  destruct (Set_all_matching reqs s pat subs sub o Hwf Hpat Hsub Ho Hall)
    as (s' & Hrun & _ & Hheap).
  exists s'. split; [done|]. rewrite Hheap. do 2 f_equal.
  destruct (wf_registered s Hwf _ _ _ Hpat Hsub) as (o1 & Ho1 & _ & Hc).
  assert (o1 = o) as -> by congruence.
  destruct (wf_queue s Hwf _ _ Ho) as (_ & Hcap & Hlen).
  destruct (enqueue_foldl (map (λ r, change_event r.1 r.2) reqs) (events o))
    as (Hb & Hc' & Hd); [by rewrite Hcap|].
  apply chan_eta; [|congruence..].
  by rewrite Hb, Hbuf, Hcap.
Qed.

(** C3. Every queue of a state of a run has capacity [queue_capacity]
    (100) and holds no more than that. Take a registered subscription with
    an empty queue and one more write than the capacity, all matching its
    prefix and none received in between: every write returns the success
    response; after the first [j] of them the queue holds the events of
    those [j] writes in write order; after the last one the queue still
    holds exactly the events of the first [queue_capacity] writes, in
    order: the last event was dropped and nothing older was displaced. *)
Theorem full_queue_drops_newest (s : KVStoreService) (pat : string)
    (subs : list loc) (sub : loc) (o : subscriber)
    (first : list (Z * pb.SetRequest.t)) (last : Z * pb.SetRequest.t) :
  reachable s →
  subscribers s !! pat = Some subs → sub ∈ subs →
  heap s !! sub = Some o → buf (events o) = [] →
  length first = queue_capacity →
  Forall (λ r, pb.SetRequest.Key r.2 ≠ ""
               ∧ HasPrefix (pb.SetRequest.Key r.2) (pattern o) = true)
         (first ++ [last]) →
  queue_capacity = 100
  ∧ (∀ sub' o', heap s !! sub' = Some o' →
       cap (events o') = queue_capacity
       ∧ length (buf (events o')) ≤ queue_capacity)
  ∧ (∀ j, j ≤ queue_capacity →
     ∃ sj,
       Set_all (take j first) s = Some (replicate j (Ok key_stored), sj)
       ∧ heap sj !! sub =
           Some (set_events
                   {| buf := map (λ r, change_event r.1 r.2) (take j first);
                      cap := queue_capacity;
                      closed := false |} o)
       ∧ length (map (λ r, change_event r.1 r.2) (take j first))
         ≤ queue_capacity)
  ∧ ∃ s',
      Set_all (first ++ [last]) s
        = Some (replicate (S queue_capacity) (Ok key_stored), s')
      ∧ heap s' !! sub =
          Some (set_events
                  {| buf := map (λ r, change_event r.1 r.2) first;
                     cap := queue_capacity;
                     closed := false |} o).
Proof.
  intros Hwf%reachable_wf Hpat Hsub Ho Hbuf Hlen Hall. split_and!.
  - done.
  - intros sub' o' Ho'. by destruct (wf_queue s Hwf _ _ Ho') as (_ & ? & ?).
  - intros j Hj.
    destruct (Set_all_fresh_queue (take j first) s pat subs sub o)
      as (sj & Hrun & Hheap); [done..| |].
    { apply Forall_take. by apply Forall_app in Hall as [? _]. }
    assert (length (take j first) = j) as Hlenj
      by (rewrite length_take; lia).
    exists sj. rewrite Hlenj in Hrun. split_and!; [done| |].
    + rewrite Hheap. rewrite take_ge; [done|]. rewrite length_map. lia.
    + rewrite length_map. lia.
  - destruct (Set_all_fresh_queue (first ++ [last]) s pat subs sub o)
      as (s' & Hrun & Hheap); [done..|].
    exists s'. rewrite length_app, Hlen, Nat.add_1_r in Hrun.
    split; [done|]. rewrite Hheap, map_app.
    rewrite take_app_length'; [done|]. by rewrite length_map.
Qed.

Lemma full_queue_drops_newest_witness :
  let first :=
    map (λ i, (Z.of_nat i, pb.SetRequest.mk "user:1" "v")) (seq 0 queue_capacity) in
  let last := (100%Z, pb.SetRequest.mk "user:2" "w") in
  let o := {| pattern := "user:"; stream := [];
              events := make_chan queue_capacity |} in
  reachable one_subscriber
  ∧ subscribers one_subscriber !! "user:"%string = Some [0]
  ∧ 0 ∈ [0]
  ∧ heap one_subscriber !! 0 = Some o
  ∧ buf (events o) = []
  ∧ length first = queue_capacity
  ∧ Forall (λ r, pb.SetRequest.Key r.2 ≠ ""
                 ∧ HasPrefix (pb.SetRequest.Key r.2) (pattern o) = true)
           (first ++ [last])
  ∧ ∃ s',
      Set_all (first ++ [last]) one_subscriber
        = Some (replicate (S queue_capacity) (Ok key_stored), s')
      ∧ heap s' !! 0 =
          Some (set_events
                  {| buf := map (λ r, change_event r.1 r.2) first;
                     cap := queue_capacity;
                     closed := false |} o).
Proof.
  intros first last o.
  assert (reachable one_subscriber) as H1.
  { exists [OpSubscribe (pb.SubscribeRequest.mk "user:")].
    vm_compute. reflexivity. }
  assert (subscribers one_subscriber !! "user:"%string = Some [0]) as H2
    by (vm_compute; reflexivity).
  assert (0 ∈ [0]) as H3 by apply list_elem_of_here.
  assert (heap one_subscriber !! 0 = Some o) as H4 by reflexivity.
  assert (buf (events o) = []) as H5 by reflexivity.
  assert (length first = queue_capacity) as H6 by (vm_compute; reflexivity).
  assert (Forall (λ r, pb.SetRequest.Key r.2 ≠ ""
                       ∧ HasPrefix (pb.SetRequest.Key r.2) (pattern o) = true)
                 (first ++ [last])) as H7.
  { apply Forall_app. split.
    - apply Forall_fmap, Forall_forall. intros i _.
      split; [done|vm_compute; reflexivity].
    - apply Forall_singleton. split; [done|vm_compute; reflexivity]. }
  destruct (full_queue_drops_newest one_subscriber "user:" [0] 0 o first last
              H1 H2 H3 H4 H5 H6 H7) as (_ & _ & _ & Hfinal).
  split_and!; done.
Defined.

(** ** Validation *)

(** C4. [Set], [Get] and [Subscribe] reject the empty key or pattern with
    [InvalidArgument]; the state they return is the state they were given
    (store, registry and every queue), so nothing was written, registered
    or published. *)
Theorem empty_key_rejected (v : string) (now : Z) (s : KVStoreService) :
  Set_ now (pb.SetRequest.mk "" v) s
    = Some (Err (status_Error codes.InvalidArgument "key cannot be empty"), s)
  ∧ Get (pb.GetRequest.mk "") s
    = Err (status_Error codes.InvalidArgument "key cannot be empty")
  ∧ Subscribe_register (pb.SubscribeRequest.mk "") s
    = (Err (status_Error codes.InvalidArgument "key_pattern cannot be empty"), s)
  ∧ exec (OpSet now (pb.SetRequest.mk "" v)) s = Some s
  ∧ exec (OpGet (pb.GetRequest.mk "")) s = Some s
  ∧ exec (OpSubscribe (pb.SubscribeRequest.mk "")) s = Some s.
Proof. by split_and!. Qed.

(** ** Overlapping prefixes *)

Lemma deliver_room ev o :
  length (buf (events o)) < cap (events o) →
  buf (events (deliver ev o)) = buf (events o) ++ [ev].
Proof. intros Hlt. simpl. unfold enqueue. by rewrite decide_True. Qed.

(** C5, as the design document words it, fails: with subscriptions to
    ["user:"] and ["user:1"], the event of [Set("user:999", "v")] is put in
    the queue of the first subscription and the queue of the second one,
    the one with prefix ["user:1"], stays empty. *)
Lemma second_subscriber_only_counterexample :
  reachable two_subscribers
  ∧ ∃ s',
      Set_ 1 (pb.SetRequest.mk "user:999" "v") two_subscribers
        = Some (Ok key_stored, s')
      ∧ buf ∘ events <$> heap s' !! 0
        = Some [pb.ChangeEvent.mk pb.ChangeEvent_SET "user:999" "v" 1]
      ∧ buf ∘ events <$> heap s' !! 1 = Some []
      ∧ ¬ (buf ∘ events <$> heap s' !! 1
             = Some [pb.ChangeEvent.mk pb.ChangeEvent_SET "user:999" "v" 1]
           ∧ buf ∘ events <$> heap s' !! 0 = Some []).
Proof.
  split; [apply reachable_two_subscribers|].
  eexists. split; [vm_compute; reflexivity|].
  split_and!; [vm_compute; reflexivity..|].
  vm_compute. by intros [? _].
Qed.

(** C5, amended. With exactly two subscriptions, [a] to ["user:"] and [b]
    to ["user:1"], whose queues have room: [Set("user:123", "v")] appends
    its event to both queues; [Set("user:999", "v")] appends its event to
    the queue of [a] only and leaves [b] as it was. *)
Theorem overlapping_prefixes (s : KVStoreService) (a b : loc)
    (oa ob : subscriber) (t1 t2 : Z) :
  reachable s →
  subscribers s = {[ "user:"%string := [a]; "user:1"%string := [b] ]} →
  heap s !! a = Some oa → heap s !! b = Some ob →
  length (buf (events oa)) < queue_capacity →
  length (buf (events ob)) < queue_capacity →
  (∃ s1 oa1 ob1,
     Set_ t1 (pb.SetRequest.mk "user:123" "v") s = Some (Ok key_stored, s1)
     ∧ heap s1 !! a = Some oa1 ∧ heap s1 !! b = Some ob1
     ∧ buf (events oa1) = buf (events oa)
         ++ [pb.ChangeEvent.mk pb.ChangeEvent_SET "user:123" "v" t1]
     ∧ buf (events ob1) = buf (events ob)
         ++ [pb.ChangeEvent.mk pb.ChangeEvent_SET "user:123" "v" t1])
  ∧ (∃ s2 oa2,
       Set_ t2 (pb.SetRequest.mk "user:999" "v") s = Some (Ok key_stored, s2)
       ∧ heap s2 !! a = Some oa2 ∧ heap s2 !! b = Some ob
       ∧ buf (events oa2) = buf (events oa)
           ++ [pb.ChangeEvent.mk pb.ChangeEvent_SET "user:999" "v" t2]).
Proof.
  intros Hwf%reachable_wf Hsubs Ha Hb Hra Hrb.
  assert (subscribers s !! "user:"%string = Some [a]) as Hpa.
  { rewrite Hsubs. by rewrite lookup_insert_eq. }
  assert (subscribers s !! "user:1"%string = Some [b]) as Hpb.
  { rewrite Hsubs. rewrite lookup_insert_ne by done.
    by rewrite lookup_singleton_eq. }
  assert (a ∈ [a]) as Hina by apply list_elem_of_here.
  assert (b ∈ [b]) as Hinb by apply list_elem_of_here.
  destruct (wf_queue s Hwf _ _ Ha) as (_ & Hcapa & _).
  destruct (wf_queue s Hwf _ _ Hb) as (_ & Hcapb & _).
  split.
  - destruct (Set_spec t1 (pb.SetRequest.mk "user:123" "v") s Hwf)
      as (s1 & Hset & _ & _ & _ & _ & Hheap); [done|].
    set (ev := change_event t1 _) in *.
    destruct (registered_target ev s _ _ _ _ Hwf Hpa Hina Ha) as [Hp Hta].
    destruct (registered_target ev s _ _ _ _ Hwf Hpb Hinb Hb) as [Hp' Htb].
    exists s1, (deliver ev oa), (deliver ev ob).
    split_and!; [done| | |apply deliver_room; lia..].
    + rewrite Hheap, Ha, decide_True; [done|]. apply Hta. by rewrite Hp.
    + rewrite Hheap, Hb, decide_True; [done|]. apply Htb. by rewrite Hp'.
  - destruct (Set_spec t2 (pb.SetRequest.mk "user:999" "v") s Hwf)
      as (s2 & Hset & _ & _ & _ & _ & Hheap); [done|].
    set (ev := change_event t2 _) in *.
    destruct (registered_target ev s _ _ _ _ Hwf Hpa Hina Ha) as [Hp Hta].
    destruct (registered_target ev s _ _ _ _ Hwf Hpb Hinb Hb) as [Hp' Htb].
    exists s2, (deliver ev oa).
    split_and!; [done| | |apply deliver_room; lia].
    + rewrite Hheap, Ha, decide_True; [done|]. apply Hta. by rewrite Hp.
    + rewrite Hheap, Hb, decide_False; [done|]. rewrite Htb, Hp'. done.
Qed.

Lemma overlapping_prefixes_witness :
  let oa := {| pattern := "user:"; stream := [];
               events := make_chan queue_capacity |} in
  let ob := {| pattern := "user:1"; stream := [];
               events := make_chan queue_capacity |} in
  reachable two_subscribers
  ∧ heap two_subscribers !! 0 = Some oa
  ∧ heap two_subscribers !! 1 = Some ob
  ∧ length (buf (events oa)) < queue_capacity
  ∧ length (buf (events ob)) < queue_capacity
  ∧ ∃ s2 oa2,
      Set_ 7 (pb.SetRequest.mk "user:999" "v") two_subscribers
        = Some (Ok key_stored, s2)
      ∧ heap s2 !! 0 = Some oa2 ∧ heap s2 !! 1 = Some ob
      ∧ buf (events oa2) = buf (events oa)
          ++ [pb.ChangeEvent.mk pb.ChangeEvent_SET "user:999" "v" 7].
Proof.
  intros oa ob.
  assert (reachable two_subscribers) as H1.
  { exists [OpSubscribe (pb.SubscribeRequest.mk "user:");
            OpSubscribe (pb.SubscribeRequest.mk "user:1")].
    vm_compute. reflexivity. }
  assert (heap two_subscribers !! 0 = Some oa) as H3 by reflexivity.
  assert (heap two_subscribers !! 1 = Some ob) as H4 by reflexivity.
  assert (length (buf (events oa)) < queue_capacity) as H5
    by (vm_compute; lia).
  assert (length (buf (events ob)) < queue_capacity) as H6
    by (vm_compute; lia).
  destruct (overlapping_prefixes two_subscribers 0 1 oa ob 5 7
              H1 eq_refl H3 H4 H5 H6) as [_ Hsecond].
  split_and!; done.
Defined.

(** ** The registry *)

Lemma wf_run_registry ops s : wf s → wf (run_registry ops s).
Proof.
  revert s. induction ops as [|o ops IH]; intros s Hwf; [done|].
  simpl. apply IH. destruct o as [req|pat sub]; simpl.
  - by apply wf_Subscribe_register.
  - by apply wf_removeSubscriber.
Qed.

Lemma removeSubscriber_last pat sub s :
  remove_first sub (map_index (subscribers s) pat) = [] →
  subscribers (removeSubscriber pat sub s) !! pat = None.
Proof. intros Hrem. simpl. by rewrite remove_from_lookup_eq, Hrem. Qed.

(** C6. Whatever registrations and [removeSubscriber] calls are made from
    the empty registry, and in every state of a run of the service, no key
    of the registry maps to an empty slice; a [removeSubscriber] call that
    removes the only subscriber of a pattern leaves no entry for that
    pattern. *)
Theorem registry_has_no_empty_entry :
  (∀ ops pat, subscribers (run_registry ops NewKVStoreService) !! pat ≠ Some [])
  ∧ (∀ s pat, reachable s → subscribers s !! pat ≠ Some [])
  ∧ (∀ s pat sub,
       subscribers s !! pat = Some [sub] →
       subscribers (removeSubscriber pat sub s) !! pat = None).
Proof.
  split_and!.
  - intros ops pat Hpat.
    by apply (wf_nonempty _ (wf_run_registry ops _ wf_New) pat []).
  - intros s pat Hwf%reachable_wf Hpat. by apply (wf_nonempty _ Hwf pat []).
  - intros s pat sub Hpat. apply removeSubscriber_last.
    rewrite (map_index_Some _ _ _ Hpat), remove_first_cons.
    by rewrite decide_True.
Qed.

Lemma registry_has_no_empty_entry_witness :
  let ops := [RegSubscribe (pb.SubscribeRequest.mk "user:");
              RegSubscribe (pb.SubscribeRequest.mk "order:");
              RegRemove "user:" 0] in
  subscribers (run_registry ops NewKVStoreService) !! "user:"%string ≠ Some []
  ∧ reachable one_subscriber
  ∧ subscribers one_subscriber !! "user:"%string = Some [0]
  ∧ subscribers (removeSubscriber "user:" 0 one_subscriber) !! "user:"%string
    = None.
Proof.
  intros ops.
  destruct registry_has_no_empty_entry as (Hreg & Hrun & Hlast).
  assert (reachable one_subscriber) as H1.
  { exists [OpSubscribe (pb.SubscribeRequest.mk "user:")].
    vm_compute. reflexivity. }
  assert (subscribers one_subscriber !! "user:"%string = Some [0]) as H2
    by (vm_compute; reflexivity).
  split_and!; [apply Hreg|done..|].
  by apply Hlast.
Defined.

Lemma set_subscribers_id m s :
  m = subscribers s → set_subscribers (λ _, m) s = s.
Proof. intros ->. by destruct s. Qed.

Lemma remove_from_absent pat sub (m : gmap string (list loc)) :
  m !! pat ≠ Some [] → sub ∉ map_index m pat → remove_from pat sub m = m.
Proof.
  intros Hne Hnin. apply map_eq. intros pat'.
  destruct (decide (pat' = pat)) as [->|Hpat'].
  - rewrite remove_from_lookup_eq, remove_first_notin by done.
    unfold map_index. by destruct (m !! pat) as [[|x l]|].
  - by apply remove_from_lookup_ne.
Qed.

Lemma removeSubscriber_absent pat sub s :
  wf s → sub ∉ map_index (subscribers s) pat → removeSubscriber pat sub s = s.
Proof.
  intros Hwf Hnin. unfold removeSubscriber.
  rewrite <- (set_subscribers_id (remove_from pat sub (subscribers s)) s) at 2.
  - done.
  - apply remove_from_absent; [|done]. intros Hpat.
    by apply (wf_nonempty s Hwf pat []).
Qed.

Lemma removeSubscriber_gone pat sub s :
  wf s → sub ∉ map_index (subscribers (removeSubscriber pat sub s)) pat.
Proof.
  intros Hwf. unfold map_index. simpl. rewrite remove_from_lookup_eq.
  destruct (remove_first sub (map_index (subscribers s) pat)) as [|x l] eqn:Hrem;
    simpl; [apply not_elem_of_nil|].
  rewrite <- Hrem. apply remove_first_NoDup. unfold map_index.
  destruct (subscribers s !! pat) as [subs|] eqn:Hpat; simpl;
    [by eapply wf_NoDup|apply NoDup_nil_2].
Qed.

(** C7. In every state of a run, and in every state that registrations and
    [removeSubscriber] calls lead to, [removeSubscriber] (a total function:
    it has no failure to report) leaves the state as it is when the address
    is not in the slice of the pattern, so a second removal of the same
    subscriber changes nothing; when the address is in the slice, that one
    element is cut out and the other subscribers of the same pattern, and
    all other patterns, stay. *)
Theorem removeSubscriber_idempotent (s : KVStoreService) (pat : string)
    (sub : loc) :
  reachable s ∨ (∃ ops, s = run_registry ops NewKVStoreService) →
  (sub ∉ map_index (subscribers s) pat → removeSubscriber pat sub s = s)
  ∧ removeSubscriber pat sub (removeSubscriber pat sub s)
    = removeSubscriber pat sub s
  ∧ (∀ l1 l2,
       subscribers s !! pat = Some (l1 ++ sub :: l2) →
       map_index (subscribers (removeSubscriber pat sub s)) pat = l1 ++ l2
       ∧ (sub ∉ l1 ++ l2)
       ∧ (∀ other, other ≠ sub →
            other ∈ (l1 ++ sub :: l2) → other ∈ (l1 ++ l2)))
  ∧ (∀ pat', pat' ≠ pat →
       subscribers (removeSubscriber pat sub s) !! pat' = subscribers s !! pat')
  ∧ store (removeSubscriber pat sub s) = store s
  ∧ heap (removeSubscriber pat sub s) = heap s.
Proof.
  intros Hs.
  assert (wf s) as Hwf.
  { destruct Hs as [Hs|[ops ->]]; [by apply reachable_wf|].
    apply wf_run_registry, wf_New. }
  clear Hs. split_and!; [| | | |done..].
  - by apply removeSubscriber_absent.
  - apply removeSubscriber_absent; [by apply wf_removeSubscriber|].
    by apply removeSubscriber_gone.
  - intros l1 l2 Hpat.
    pose proof (wf_NoDup s Hwf _ _ Hpat) as Hnd.
    apply NoDup_app in Hnd as (_ & Hl1 & Hnd2).
    apply NoDup_cons in Hnd2 as [Hl2 _].
    assert (sub ∉ l1) as Hnin.
    { intros Hin. apply (Hl1 _ Hin). apply list_elem_of_here. }
    assert (remove_first sub (map_index (subscribers s) pat) = l1 ++ l2) as Hrem.
    { rewrite (map_index_Some _ _ _ Hpat). by apply remove_first_split. }
    split_and!.
    + unfold map_index. simpl. rewrite remove_from_lookup_eq, Hrem.
      by destruct (l1 ++ l2).
    + rewrite elem_of_app. by intros [?|?].
    + intros other Hne. rewrite !elem_of_app, elem_of_cons.
      intros [?|[?|?]]; [by left|done|by right].
  - intros pat' Hne. simpl. by apply remove_from_lookup_ne.
Qed.

Lemma removeSubscriber_idempotent_witness :
  reachable two_subscribers
  ∧ (5 ∉ map_index (subscribers two_subscribers) "user:")
  ∧ removeSubscriber "user:" 5 two_subscribers = two_subscribers
  ∧ removeSubscriber "user:" 0 (removeSubscriber "user:" 0 two_subscribers)
    = removeSubscriber "user:" 0 two_subscribers.
Proof.
  assert (reachable two_subscribers) as H1.
  { exists [OpSubscribe (pb.SubscribeRequest.mk "user:");
            OpSubscribe (pb.SubscribeRequest.mk "user:1")].
    vm_compute. reflexivity. }
  assert (5 ∉ map_index (subscribers two_subscribers) "user:") as H2.
  { replace (map_index (subscribers two_subscribers) "user:") with [0]
      by (vm_compute; reflexivity).
    by intros ?%list_elem_of_singleton. }
  split_and!; [exact H1|exact H2| |].
  - by apply (removeSubscriber_idempotent two_subscribers "user:" 5
                (or_introl H1)).
  - apply (removeSubscriber_idempotent two_subscribers "user:" 0
             (or_introl H1)).
Defined.

(** ** Events come from [Set] alone *)

Lemma no_publish_refl s : no_publish s s.
Proof. intros sub o' Ho'. by rewrite Ho'. Qed.

Lemma no_publish_trans s1 s2 s3 :
  no_publish s1 s2 → no_publish s2 s3 → no_publish s1 s3.
Proof.
  intros H12 H23 sub o3 Ho3. specialize (H23 sub o3 Ho3).
  destruct (heap s2 !! sub) as [o2|] eqn:Ho2.
  - specialize (H12 sub o2 Ho2).
    destruct (heap s1 !! sub) as [o1|]; [by etrans|].
    rewrite H12 in H23. by apply suffix_nil_inv in H23.
  - rewrite H23. destruct (heap s1 !! sub); [apply suffix_nil|done].
Qed.

Lemma no_publish_update sub o o' s :
  heap s !! sub = Some o →
  buf (events o') `suffix_of` buf (events o) →
  no_publish s (set_heap (λ h, <[sub := o']> h) s).
Proof.
  intros Ho Hsuf sub' o1. simpl.
  destruct (decide (sub' = sub)) as [->|Hne].
  - rewrite list_lookup_insert_eq by (by eapply lookup_lt_Some).
    intros [= <-]. by rewrite Ho.
  - rewrite list_lookup_insert_ne by done. intros Ho1. by rewrite Ho1.
Qed.

Lemma no_publish_removeSubscriber pat sub s :
  no_publish s (removeSubscriber pat sub s).
Proof. intros sub' o' Ho'. simpl in Ho'. by rewrite Ho'. Qed.

Lemma no_publish_cleanup sub s s' :
  Subscribe_cleanup sub s = Some s' → no_publish s s'.
Proof.
  unfold Subscribe_cleanup. destruct (heap s !! sub) as [o|] eqn:Ho; [|done].
  unfold chan_close. destruct (closed (events o)); [done|]. intros [= <-].
  apply (no_publish_trans _ (removeSubscriber (pattern o) sub s)).
  - apply no_publish_removeSubscriber.
  - by apply (no_publish_update sub o).
Qed.

Lemma no_publish_register req s : no_publish s (Subscribe_register req s).2.
Proof.
  unfold Subscribe_register. case_decide; [apply no_publish_refl|].
  intros sub o'. simpl. intros Ho'.
  apply lookup_app_Some in Ho' as [Ho'|[Hlen Ho']].
  - by rewrite Ho'.
  - apply list_lookup_singleton_Some in Ho' as [_ <-].
    by rewrite (lookup_ge_None_2 (heap s) sub).
Qed.

Lemma no_publish_turn sub c s r s' :
  Subscribe_turn sub c s = Some (r, s') → no_publish s s'.
Proof.
  unfold Subscribe_turn. destruct (heap s !! sub) as [o|] eqn:Ho; [|done].
  destruct (closed (events o)); [done|].
  destruct c as [|msg|].
  - unfold chan_recv. destruct (buf (events o)) as [|ev q] eqn:Hb; [done|].
    simpl. intros [= <- <-]. apply (no_publish_update sub o); [done|].
    simpl. rewrite Hb. by apply suffix_cons_r.
  - unfold chan_recv. destruct (buf (events o)) as [|ev q] eqn:Hb; [done|].
    simpl. destruct (Subscribe_cleanup _ _) as [s1|] eqn:Hs1; [|done].
    simpl. intros [= <- <-].
    eapply no_publish_trans; [|by eapply no_publish_cleanup].
    apply (no_publish_update sub o); [done|].
    simpl. rewrite Hb. by apply suffix_cons_r.
  - destruct (Subscribe_cleanup sub s) as [s1|] eqn:Hs1; [|done].
    simpl. intros [= <- <-]. by eapply no_publish_cleanup.
Qed.

Lemma deliver_full ev o :
  cap (events o) ≤ length (buf (events o)) → deliver ev o = o.
Proof.
  intros Hfull. unfold deliver, enqueue.
  rewrite decide_False by lia. by destruct o.
Qed.

(** C8. A [Set] with a non-empty key is the write to the store followed by
    one call of [notifySubscribers] on the event [(SET, key, value, now)],
    [now] being the clock reading taken after the write. In a state of a
    run it returns the success response; the store has the value under the
    key, the registry is as before, and that one event has been sent once to
    the queue of every registered subscriber whose pattern is a prefix of
    the key (at the tail when the queue has room, dropped when it is
    full), every other subscriber being left as it was. No other operation
    adds an event to any queue. *)
Theorem Set_publishes_one_event (now : Z) (req : pb.SetRequest.t)
    (s : KVStoreService) :
  pb.SetRequest.Key req ≠ "" →
  let ev := {| pb.ChangeEvent.ChangeType := pb.ChangeEvent_SET;
               pb.ChangeEvent.Key := pb.SetRequest.Key req;
               pb.ChangeEvent.Value := pb.SetRequest.Value req;
               pb.ChangeEvent.Timestamp := now |} in
  let written := store_Store (pb.SetRequest.Key req)
                   (any_string (pb.SetRequest.Value req)) s in
  Set_ now req s
    = match notifySubscribers ev written with
      | Some (s', _) => Some (Ok key_stored, s')
      | None => None
      end
  ∧ (reachable s →
     ∃ s' n,
       notifySubscribers ev written = Some (s', n)
       ∧ Set_ now req s = Some (Ok key_stored, s')
       ∧ store s' = <[pb.SetRequest.Key req :=
                        any_string (pb.SetRequest.Value req)]> (store s)
       ∧ subscribers s' = subscribers s
       ∧ length (heap s') = length (heap s)
       ∧ (∀ sub o,
            heap s !! sub = Some o →
            (sub ∈ map_index (subscribers s) (pattern o) →
             HasPrefix (pb.SetRequest.Key req) (pattern o) = true →
             heap s' !! sub = Some (deliver ev o)
             ∧ (length (buf (events o)) < queue_capacity →
                buf (events (deliver ev o)) = buf (events o) ++ [ev])
             ∧ (length (buf (events o)) = queue_capacity →
                deliver ev o = o))
            ∧ (sub ∉ map_index (subscribers s) (pattern o)
               ∨ HasPrefix (pb.SetRequest.Key req) (pattern o) = false →
               heap s' !! sub = Some o))
       ∧ ∀ sub, heap s' !! sub = heap s !! sub
                ∨ heap s' !! sub = deliver ev <$> heap s !! sub)
  ∧ (∀ o s1 s2,
       exec o s1 = Some s2 →
       (∀ now' req', o = OpSet now' req' → pb.SetRequest.Key req' = "") →
       no_publish s1 s2).
Proof.
  intros Hkey ev written. split_and!.
  - unfold Set_. by rewrite decide_False.
  - intros Hwf%reachable_wf.
    destruct (Set_spec now req s Hwf Hkey)
      as (s' & Hset & _ & Hst & Hsubs & Hlen & Hheap).
    change (change_event now req) with ev in Hheap.
    assert (∃ n, notifySubscribers ev written = Some (s', n)) as [n Hrun].
    { unfold Set_ in Hset. rewrite decide_False in Hset by done.
      change (change_event now req) with ev in Hset. fold written in Hset.
      destruct (notifySubscribers ev written) as [[s2 n]|]; [|done].
      injection Hset as <-. by exists n. }
    exists s', n. split_and!; [done..| |].
    + intros sub o Ho. specialize (Hheap sub). rewrite Ho in Hheap.
      destruct (wf_queue s Hwf _ _ Ho) as (_ & Hcap & _).
      split.
      * intros Hin Hm.
        assert (sub ∈ targets ev (map_to_list (subscribers s))) as Htarget.
        { apply elem_of_targets_registry. unfold map_index in Hin.
          destruct (subscribers s !! pattern o) as [subs|] eqn:Hpat;
            [|by apply elem_of_nil in Hin].
          by exists (pattern o), subs. }
        rewrite decide_True in Hheap by done.
        split_and!; [exact Hheap| |].
        -- intros Hroom. apply deliver_room. by rewrite Hcap.
        -- intros Hfull. apply deliver_full. by rewrite Hcap, Hfull.
      * intros Hnot. rewrite decide_False in Hheap; [exact Hheap|].
        intros (pat & subs & Hpat & Hin & Hm)%elem_of_targets_registry.
        destruct (wf_registered s Hwf _ _ _ Hpat Hin) as (o' & Ho' & Hp & _).
        assert (o' = o) as -> by congruence. subst pat.
        destruct Hnot as [Hnot|Hnot]; [|simpl in Hm; congruence].
        apply Hnot. by rewrite (map_index_Some _ _ _ Hpat).
    + intros sub. rewrite Hheap. case_decide; [by right|by left].
  - intros o s1 s2 Hexec Hnot.
    destruct o as [req'|now' req'|req'|sub c]; simpl in Hexec.
    + injection Hexec as <-. apply no_publish_refl.
    + rewrite (Set_empty_key now' req' s1) in Hexec by (by eapply Hnot).
      injection Hexec as <-. apply no_publish_refl.
    + injection Hexec as <-. apply no_publish_register.
    + destruct (Subscribe_turn sub c s1) as [[r s1']|] eqn:Hturn; [|done].
      injection Hexec as <-. by eapply no_publish_turn.
Qed.

Lemma Set_publishes_one_event_witness :
  let req := pb.SetRequest.mk "user:123" "Alice" in
  let ev := pb.ChangeEvent.mk pb.ChangeEvent_SET "user:123" "Alice"
              1700000000000 in
  let o := {| pattern := "user:"; stream := [];
              events := make_chan queue_capacity |} in
  pb.SetRequest.Key req ≠ ""
  ∧ reachable one_subscriber
  ∧ heap one_subscriber !! 0 = Some o
  ∧ (0 ∈ map_index (subscribers one_subscriber) (pattern o))
  ∧ HasPrefix (pb.SetRequest.Key req) (pattern o) = true
  ∧ (∃ s',
       Set_ 1700000000000 req one_subscriber = Some (Ok key_stored, s')
       ∧ heap s' !! 0
         = Some {| pattern := "user:"; stream := [];
                   events := {| buf := [ev]; cap := queue_capacity;
                                closed := false |} |})
  ∧ no_publish one_subscriber
      (Subscribe_register (pb.SubscribeRequest.mk "order:") one_subscriber).2.
Proof.
  intros req ev o.
  assert (pb.SetRequest.Key req ≠ "") as H1 by discriminate.
  assert (reachable one_subscriber) as H2.
  { exists [OpSubscribe (pb.SubscribeRequest.mk "user:")].
    vm_compute. reflexivity. }
  assert (heap one_subscriber !! 0 = Some o) as H3 by reflexivity.
  assert (0 ∈ map_index (subscribers one_subscriber) (pattern o)) as H4.
  { replace (map_index (subscribers one_subscriber) (pattern o)) with [0]
      by (vm_compute; reflexivity).
    apply list_elem_of_here. }
  assert (HasPrefix (pb.SetRequest.Key req) (pattern o) = true) as H5
    by (vm_compute; reflexivity).
  destruct (Set_publishes_one_event 1700000000000 req one_subscriber H1)
    as (_ & Hrun & Hothers).
  destruct (Hrun H2) as (s' & n & _ & Hset & _ & _ & _ & Hqueues & _).
  destruct (Hqueues 0 o H3) as [Hsent _].
  destruct (Hsent H4 H5) as (Hheap & _ & _).
  split_and!; [exact H1|exact H2|exact H3|exact H4|exact H5| |].
  - exists s'. split; [exact Hset|exact Hheap].
  - apply (Hothers (OpSubscribe (pb.SubscribeRequest.mk "order:"))).
    + reflexivity.
    + discriminate.
Defined.

(** ** The store holds strings *)

(** The [Internal] branch of [Get] is taken when the store holds a value
    that is not a string. *)
Lemma Get_internal_branch :
  Get (pb.GetRequest.mk "k")
      (set_store (λ _, {[ "k"%string := any_other 1 ]}) NewKVStoreService)
  = Err (status_Error codes.Internal "internal storage error").
Proof. vm_compute. reflexivity. Qed.

(** C9. In every state of a run, each value in the store is a string, so
    [Get] with a non-empty key returns a response, and [Get] never returns
    the [Internal] error. *)
Theorem Get_never_internal_error (s : KVStoreService) :
  reachable s →
  (∀ k v, store s !! k = Some v → ∃ str, v = any_string str)
  ∧ (∀ req, pb.GetRequest.Key req ≠ "" →
       Get req s = Ok {| pb.GetResponse.Value := ""; pb.GetResponse.Found := false |}
       ∨ ∃ str, store s !! pb.GetRequest.Key req = Some (any_string str)
                ∧ Get req s = Ok {| pb.GetResponse.Value := str;
                                    pb.GetResponse.Found := true |})
  ∧ (∀ req msg, Get req s ≠ Err (status_Error codes.Internal msg)).
Proof.
  intros Hwf%reachable_wf. split_and!.
  - apply (wf_strings s Hwf).
  - intros req Hkey. unfold Get. rewrite decide_False by done.
    destruct (store s !! pb.GetRequest.Key req) as [v|] eqn:Hv; [|by left].
    destruct (wf_strings s Hwf _ _ Hv) as [str ->]. right. by exists str.
  - intros req msg. unfold Get. case_decide; [done|].
    destruct (store s !! pb.GetRequest.Key req) as [v|] eqn:Hv; [|done].
    by destruct (wf_strings s Hwf _ _ Hv) as [str ->].
Qed.

Lemma Get_never_internal_error_witness :
  ∃ s,
    run [OpSet 1 (pb.SetRequest.mk "user:123" "Alice");
         OpGet (pb.GetRequest.mk "user:123");
         OpSet 2 (pb.SetRequest.mk "user:123" "")] NewKVStoreService = Some s
    ∧ Get (pb.GetRequest.mk "user:123") s
      ≠ Err (status_Error codes.Internal "internal storage error").
Proof.
  eexists. split; [vm_compute; reflexivity|].
  apply Get_never_internal_error.
  exists [OpSet 1 (pb.SetRequest.mk "user:123" "Alice");
          OpGet (pb.GetRequest.mk "user:123");
          OpSet 2 (pb.SetRequest.mk "user:123" "")].
  vm_compute. reflexivity.
Defined.

(** ** The response of [Set] *)

Lemma StoreOnly_Get req s : Get req s = StoreOnly.Get req (store s).
Proof. done. Qed.

Lemma StoreOnly_Set now req s r s' :
  Set_ now req s = Some (r, s') → StoreOnly.Set_ req (store s) = (r, store s').
Proof.
  unfold Set_, StoreOnly.Set_. case_decide; [by intros [= <- <-]|].
  destruct (notifySubscribers _ _) as [[s2 n]|] eqn:Hn; [|done].
  intros [= <- <-].
  by destruct (notifySubscribers_frame _ _ _ _ Hn) as (-> & _).
Qed.

(** C10. Whenever [Set] returns a response rather than an error, the
    response is [Success = true] with the message ["key stored
    successfully"]; with a non-empty key, in every state of a run, [Set]
    does return that response. The same holds of [Set] in the revision of
    the service that has no registry. *)
Theorem Set_response_is_success :
  (∀ now req s resp s',
     Set_ now req s = Some (Ok resp, s') →
     resp = key_stored ∧ pb.SetResponse.Success resp = true
     ∧ pb.SetResponse.Message resp = "key stored successfully")
  ∧ (∀ now req s,
       reachable s → pb.SetRequest.Key req ≠ "" →
       ∃ s', Set_ now req s = Some (Ok key_stored, s'))
  ∧ (∀ req st resp st',
       StoreOnly.Set_ req st = (Ok resp, st') →
       resp = key_stored ∧ pb.SetResponse.Success resp = true)
  ∧ (∀ req st,
       pb.SetRequest.Key req ≠ "" →
       ∃ st', StoreOnly.Set_ req st = (Ok key_stored, st')).
Proof.
  split_and!.
  - intros now req s resp s'. unfold Set_. case_decide; [done|].
    destruct (notifySubscribers _ _) as [[s2 n]|]; [|done].
    by intros [= <- <-].
  - intros now req s Hwf%reachable_wf Hkey.
    destruct (Set_spec now req s Hwf Hkey) as (s' & Hset & _). eauto.
  - intros req st resp st'. unfold StoreOnly.Set_. case_decide; [done|].
    by intros [= <- <-].
  - intros req st Hkey. unfold StoreOnly.Set_. rewrite decide_False by done.
    eauto.
Qed.

Lemma Set_response_is_success_witness :
  reachable two_subscribers
  ∧ ∃ s',
      Set_ 9 (pb.SetRequest.mk "user:123" "Alice") two_subscribers
        = Some (Ok key_stored, s')
      ∧ pb.SetResponse.Success key_stored = true.
Proof.
  destruct Set_response_is_success as (Hresp & Hret & _ & _).
  assert (reachable two_subscribers) as H1.
  { exists [OpSubscribe (pb.SubscribeRequest.mk "user:");
            OpSubscribe (pb.SubscribeRequest.mk "user:1")].
    vm_compute. reflexivity. }
  split; [done|].
  destruct (Hret 9%Z (pb.SetRequest.mk "user:123" "Alice") two_subscribers H1)
    as [s' Hset]; [done|].
  exists s'. split; [done|].
  by destruct (Hresp _ _ _ _ _ Hset) as (_ & ? & _).
Defined.

(** * More of the code *)

(** ** Keys that were never written, keys that were *)

(** X1. [Get] on a non-empty key that is not in the store answers
    [("", false)] without error, and goes on doing so after any operations
    that do not write that key. *)
Theorem Get_unwritten_key (k : string) (ops : list op) (s0 s : KVStoreService) :
  k ≠ "" → store s0 !! k = None →
  run ops s0 = Some s → Forall (λ o, ¬ writes_key k o) ops →
  Get (pb.GetRequest.mk k) s
  = Ok {| pb.GetResponse.Value := ""; pb.GetResponse.Found := false |}.
Proof.
  intros Hk Hnone Hrun Hops.
  pose proof (run_store_other k _ _ _ Hrun Hops) as Hs. rewrite Hnone in Hs.
  unfold Get. simpl. by rewrite decide_False, Hs.
Qed.

Lemma Get_unwritten_key_witness :
  ∃ s,
    run [OpSet 1 (pb.SetRequest.mk "user:1" "a");
         OpSubscribe (pb.SubscribeRequest.mk "order:");
         OpGet (pb.GetRequest.mk "order:7")] NewKVStoreService = Some s
    ∧ Get (pb.GetRequest.mk "order:7") s
      = Ok {| pb.GetResponse.Value := ""; pb.GetResponse.Found := false |}.
Proof.
  eexists. split; [vm_compute; reflexivity|].
  apply (Get_unwritten_key "order:7"
           [OpSet 1 (pb.SetRequest.mk "user:1" "a");
            OpSubscribe (pb.SubscribeRequest.mk "order:");
            OpGet (pb.GetRequest.mk "order:7")] NewKVStoreService).
  - done.
  - reflexivity.
  - vm_compute; reflexivity.
  - repeat constructor; simpl; try tauto; discriminate.
Defined.

Lemma exec_store_keeps_keys k o s s' :
  exec o s = Some s' → is_Some (store s !! k) → is_Some (store s' !! k).
Proof.
  destruct o as [req|now req|req|sub c]; simpl.
  - by intros [= <-].
  - destruct (Set_ now req s) as [[r s1]|] eqn:Hset; [|done].
    simpl. intros [= <-] Hk.
    destruct (decide (pb.SetRequest.Key req = "")) as [He|He].
    + rewrite (Set_empty_key _ _ _ He) in Hset. by injection Hset as <- <-.
    + rewrite (Set_store _ _ _ _ _ Hset He).
      destruct (decide (pb.SetRequest.Key req = k)) as [->|Hne].
      * rewrite lookup_insert_eq. eauto.
      * by rewrite lookup_insert_ne.
  - intros [= <-]. by rewrite Subscribe_register_store.
  - destruct (Subscribe_turn sub c s) as [[r s1]|] eqn:Hturn; [|done].
    simpl. intros [= <-]. by rewrite (Subscribe_turn_store _ _ _ _ _ Hturn).
Qed.

Lemma run_store_keeps_keys k ops s s' :
  run ops s = Some s' → is_Some (store s !! k) → is_Some (store s' !! k).
Proof.
  revert s. induction ops as [|o ops IH]; intros s; simpl.
  - by intros [= <-].
  - destruct (exec o s) as [s1|] eqn:Hexec; [|done].
    intros Hrun Hk. apply (IH _ Hrun). by eapply exec_store_keeps_keys.
Qed.

(** X2. Nothing removes a key: once [Get] has found a key, [Get] finds it
    (with some string value) after any further operations of a run. *)
Theorem found_keys_stay_found (ops : list op) (s s' : KVStoreService)
    (req : pb.GetRequest.t) (resp : pb.GetResponse.t) :
  reachable s → run ops s = Some s' →
  Get req s = Ok resp → pb.GetResponse.Found resp = true →
  ∃ v, Get req s' = Ok {| pb.GetResponse.Value := v; pb.GetResponse.Found := true |}.
Proof.
  intros Hreach Hrun Hget Hfound.
  assert (wf s') as Hwf' by (eapply wf_run; [by apply reachable_wf|done]).
  unfold Get in *. case_decide as Hkey; [done|].
  destruct (store s !! pb.GetRequest.Key req) as [v0|] eqn:Hv0.
  - destruct (run_store_keeps_keys (pb.GetRequest.Key req) _ _ _ Hrun)
      as [v' Hv']; [by rewrite Hv0|].
    rewrite Hv'. destruct (wf_strings s' Hwf' _ _ Hv') as [str ->]. eauto.
  - injection Hget as <-. done.
Qed.

Lemma found_keys_stay_found_witness :
  ∃ s s',
    run [OpSet 1 (pb.SetRequest.mk "user:1" "a")] NewKVStoreService = Some s
    ∧ run [OpSet 2 (pb.SetRequest.mk "user:2" "b");
           OpSet 3 (pb.SetRequest.mk "user:1" "c")] s = Some s'
    ∧ Get (pb.GetRequest.mk "user:1") s = Ok (pb.GetResponse.mk "a" true)
    ∧ ∃ v, Get (pb.GetRequest.mk "user:1") s'
           = Ok {| pb.GetResponse.Value := v; pb.GetResponse.Found := true |}.
Proof.
  eexists _, _.
  split; [vm_compute; reflexivity|].
  split; [vm_compute; reflexivity|].
  split; [vm_compute; reflexivity|].
  eapply (found_keys_stay_found
            [OpSet 2 (pb.SetRequest.mk "user:2" "b");
             OpSet 3 (pb.SetRequest.mk "user:1" "c")]).
  - exists [OpSet 1 (pb.SetRequest.mk "user:1" "a")]. vm_compute; reflexivity.
  - vm_compute; reflexivity.
  - vm_compute; reflexivity.
  - reflexivity.
Defined.

(** ** Registration *)

Lemma Subscribe_register_ok p s :
  p ≠ "" →
  Subscribe_register (pb.SubscribeRequest.mk p) s
  = (Ok (length (heap s)),
     set_subscribers (λ m, <[p := map_index m p ++ [length (heap s)]]> m)
       (set_heap (λ h, h ++ [ {| pattern := p; stream := [];
                                 events := make_chan queue_capacity |} ]) s)).
Proof. intros Hp. unfold Subscribe_register. simpl. by rewrite decide_False. Qed.

(** X3. A [Subscribe] with a non-empty pattern gets a fresh subscriber
    with an empty open queue, appended to the slice of its pattern; nothing
    published before is replayed, other patterns and subscribers are
    untouched, and the next [Set] whose key begins with the pattern puts
    exactly its event in the new queue. *)
Theorem new_subscriber_gets_next_event (s : KVStoreService) (p k v : string)
    (now : Z) :
  reachable s → p ≠ "" → k ≠ "" → HasPrefix k p = true →
  let sub := length (heap s) in
  let s1 := (Subscribe_register (pb.SubscribeRequest.mk p) s).2 in
  (Subscribe_register (pb.SubscribeRequest.mk p) s).1 = Ok sub
  ∧ heap s !! sub = None
  ∧ heap s1 !! sub = Some {| pattern := p; stream := [];
                             events := make_chan queue_capacity |}
  ∧ map_index (subscribers s1) p = map_index (subscribers s) p ++ [sub]
  ∧ (∀ p', p' ≠ p → subscribers s1 !! p' = subscribers s !! p')
  ∧ (∀ sub' o, heap s !! sub' = Some o → heap s1 !! sub' = Some o)
  ∧ ∃ s2,
      Set_ now (pb.SetRequest.mk k v) s1 = Some (Ok key_stored, s2)
      ∧ heap s2 !! sub
        = Some {| pattern := p; stream := [];
                  events := {| buf := [pb.ChangeEvent.mk pb.ChangeEvent_SET k v now];
                               cap := queue_capacity; closed := false |} |}.
Proof.
  intros Hreach Hp Hk Hm sub s1. subst s1.
  pose proof (wf_Subscribe_register (pb.SubscribeRequest.mk p) s
                (reachable_wf s Hreach)) as Hwf1.
  rewrite (Subscribe_register_ok p s Hp) in *.
  set (s1 := set_subscribers _ _) in *.
  split_and!.
  - done.
  - by apply lookup_ge_None_2.
  - by apply list_lookup_middle.
  - apply map_index_insert.
  - intros p' Hne. by apply lookup_insert_ne.
  - intros sub' o Ho. by apply lookup_app_l_Some.
  - destruct (Set_spec now (pb.SetRequest.mk k v) s1 Hwf1)
      as (s2 & Hset & _ & _ & _ & _ & Hheap); [done|].
    exists s2. split; [exact Hset|].
    rewrite Hheap, decide_True.
    + change (heap s1) with
        (heap s ++ [ {| pattern := p; stream := [];
                        events := make_chan queue_capacity |} ]).
      by rewrite list_lookup_middle.
    + apply elem_of_targets_registry.
      exists p, (map_index (subscribers s) p ++ [sub]).
      split_and!; [apply lookup_insert_eq| |done].
      apply elem_of_app. right. apply list_elem_of_here.
Qed.

Lemma new_subscriber_gets_next_event_witness :
  reachable one_subscriber
  ∧ HasPrefix "user:42" "user:" = true
  ∧ ∃ s2,
      Set_ 5 (pb.SetRequest.mk "user:42" "x")
        (Subscribe_register (pb.SubscribeRequest.mk "user:") one_subscriber).2
      = Some (Ok key_stored, s2)
      ∧ heap s2 !! 1
        = Some {| pattern := "user:"; stream := [];
                  events := {| buf := [pb.ChangeEvent.mk pb.ChangeEvent_SET
                                         "user:42" "x" 5];
                               cap := queue_capacity; closed := false |} |}.
Proof.
  assert (reachable one_subscriber) as H1.
  { exists [OpSubscribe (pb.SubscribeRequest.mk "user:")].
    vm_compute. reflexivity. }
  assert (HasPrefix "user:42" "user:" = true) as H2 by (vm_compute; reflexivity).
  split; [done|]. split; [done|].
  assert ("user:"%string ≠ "") as Hp by done.
  assert ("user:42"%string ≠ "") as Hk by done.
  exact (proj2 (proj2 (proj2 (proj2 (proj2 (proj2
           (new_subscriber_gets_next_event one_subscriber "user:" "user:42" "x" 5
              H1 Hp Hk H2))))))).
Defined.

(** ** Handlers and the registry *)

Lemma elem_of_remove_first_ne sub x subs :
  x ≠ sub → x ∈ subs → x ∈ remove_first sub subs.
Proof.
  intros Hne. induction subs as [|y subs IH]; [done|].
  rewrite remove_first_cons. case_decide as Hy.
  - rewrite elem_of_cons. intros [->|?]; [by subst|done].
  - rewrite !elem_of_cons. intros [->|?]; [by left|right; auto].
Qed.

Lemma remove_first_length sub subs :
  sub ∈ subs → S (length (remove_first sub subs)) = length subs.
Proof.
  induction subs as [|y subs IH]; [by intros ?%elem_of_nil|].
  rewrite remove_first_cons. case_decide as Hy; [done|].
  rewrite elem_of_cons. intros [->|Hin]; [done|]. simpl. by rewrite IH.
Qed.

Lemma map_index_remove_from pat sub m :
  map_index (remove_from pat sub m) pat = remove_first sub (map_index m pat).
Proof.
  unfold map_index at 1. rewrite remove_from_lookup_eq.
  by destruct (remove_first sub (map_index m pat)).
Qed.

Lemma map_index_remove_from_ne pat sub m pat' :
  pat' ≠ pat → map_index (remove_from pat sub m) pat' = map_index m pat'.
Proof. intros Hne. unfold map_index. by rewrite remove_from_lookup_ne. Qed.

Lemma live_registered_New : live_registered NewKVStoreService.
Proof. intros sub o Ho. simpl in Ho. by rewrite lookup_nil in Ho. Qed.

Lemma live_registered_Set now req s r s' :
  wf s → live_registered s → Set_ now req s = Some (r, s') →
  live_registered s'.
Proof.
  intros Hwf Hlive Hset.
  destruct (decide (pb.SetRequest.Key req = "")) as [He|He].
  { rewrite (Set_empty_key _ _ _ He) in Hset. by injection Hset as <- <-. }
  destruct (Set_spec now req s Hwf He)
    as (s2 & Hset' & _ & _ & Hsubs & _ & Hheap).
  rewrite Hset in Hset'. injection Hset' as -> <-.
  intros sub o'. rewrite Hheap, Hsubs.
  destruct (heap s !! sub) as [o|] eqn:Ho; [|by case_decide].
  case_decide; simpl; intros [= <-]; [|by apply Hlive].
  simpl. rewrite enqueue_closed. by apply Hlive.
Qed.

Lemma live_registered_register req s :
  live_registered s → live_registered (Subscribe_register req s).2.
Proof.
  intros Hlive. unfold Subscribe_register. case_decide as Hreq; [done|].
  set (p := pb.SubscribeRequest.KeyPattern req) in *.
  intros sub o. simpl. intros Ho Hc.
  apply lookup_app_Some in Ho as [Ho|[Hlen Ho]].
  - specialize (Hlive _ _ Ho Hc).
    destruct (decide (pattern o = p)) as [Hp|Hp].
    + rewrite Hp in *. rewrite map_index_insert, elem_of_app. by left.
    + unfold map_index in *. by rewrite lookup_insert_ne.
  - apply list_lookup_singleton_Some in Ho as [Hsub <-]. simpl.
    rewrite map_index_insert, elem_of_app. right.
    replace sub with (length (heap s)) by lia. apply list_elem_of_here.
Qed.

Lemma live_registered_update sub o o' s :
  heap s !! sub = Some o → pattern o' = pattern o →
  (closed (events o') = false → closed (events o) = false) →
  live_registered s → live_registered (set_heap (λ h, <[sub := o']> h) s).
Proof.
  intros Ho Hp Hc Hlive sub' o1. simpl.
  destruct (decide (sub' = sub)) as [->|Hne].
  - rewrite list_lookup_insert_eq by (by eapply lookup_lt_Some).
    intros [= <-] Hc1. rewrite Hp. by apply Hlive; [|apply Hc].
  - rewrite list_lookup_insert_ne by done. apply Hlive.
Qed.

Lemma live_registered_cleanup sub s s' :
  live_registered s → Subscribe_cleanup sub s = Some s' → live_registered s'.
Proof.
  intros Hlive. unfold Subscribe_cleanup.
  destruct (heap s !! sub) as [o|] eqn:Ho; [|done].
  unfold chan_close. destruct (closed (events o)) eqn:Hc; [done|].
  intros [= <-] sub' o1. simpl.
  destruct (decide (sub' = sub)) as [->|Hne].
  - rewrite list_lookup_insert_eq by (by eapply lookup_lt_Some).
    by intros [= <-].
  - rewrite list_lookup_insert_ne by done. intros Ho1 Hc1.
    specialize (Hlive _ _ Ho1 Hc1).
    destruct (decide (pattern o1 = pattern o)) as [Hp|Hp].
    + rewrite Hp in *. rewrite map_index_remove_from.
      by apply elem_of_remove_first_ne.
    + by rewrite map_index_remove_from_ne.
Qed.

Lemma live_registered_turn sub c s r s' :
  live_registered s → Subscribe_turn sub c s = Some (r, s') →
  live_registered s'.
Proof.
  intros Hlive. unfold Subscribe_turn.
  destruct (heap s !! sub) as [o|] eqn:Ho; [|done].
  destruct (closed (events o)) eqn:Hc; [done|].
  destruct c as [|msg|].
  - destruct (chan_recv (events o)) as [[ev q]|] eqn:Hrecv; [|done].
    simpl. intros [= <- <-].
    by apply (live_registered_update sub o).
  - destruct (chan_recv (events o)) as [[ev q]|] eqn:Hrecv; [|done].
    simpl. destruct (Subscribe_cleanup _ _) as [s1|] eqn:Hs1; [|done].
    simpl. intros [= <- <-].
    eapply live_registered_cleanup; [|exact Hs1].
    by apply (live_registered_update sub o).
  - destruct (Subscribe_cleanup sub s) as [s1|] eqn:Hs1; [|done].
    simpl. intros [= <- <-]. by eapply live_registered_cleanup.
Qed.

Lemma live_registered_run ops s s' :
  wf s → live_registered s → run ops s = Some s' → live_registered s'.
Proof.
  revert s. induction ops as [|o ops IH]; intros s Hwf Hlive; simpl.
  - by intros [= <-].
  - destruct (exec o s) as [s1|] eqn:Hexec; [|done].
    apply IH; [by eapply wf_exec|].
    destruct o as [req|now req|req|sub c]; simpl in Hexec.
    + by injection Hexec as <-.
    + destruct (Set_ now req s) as [[r s2]|] eqn:Hset; [|done].
      injection Hexec as <-. by eapply live_registered_Set.
    + injection Hexec as <-. by apply live_registered_register.
    + destruct (Subscribe_turn sub c s) as [[r s2]|] eqn:Hturn; [|done].
      injection Hexec as <-. by eapply live_registered_turn.
Qed.

Lemma reachable_live s : reachable s → live_registered s.
Proof.
  intros [ops Hrun].
  eapply live_registered_run; [apply wf_New|apply live_registered_New|done].
Qed.

(** X4. In every state of a run a subscriber is in the registry exactly
    while its handler is running (its queue is open), it is registered
    under its own pattern only, and that pattern is not empty. *)
Theorem registered_iff_handler_running (s : KVStoreService) (sub : loc)
    (o : subscriber) :
  reachable s → heap s !! sub = Some o →
  (closed (events o) = false ↔ sub ∈ map_index (subscribers s) (pattern o))
  ∧ (∀ pat subs,
       subscribers s !! pat = Some subs → sub ∈ subs → pat = pattern o)
  ∧ pattern o ≠ "".
Proof.
  intros Hreach Ho.
  pose proof (reachable_wf s Hreach) as Hwf.
  pose proof (reachable_live s Hreach) as Hlive.
  split_and!.
  - split; [by apply Hlive|].
    unfold map_index.
    destruct (subscribers s !! pattern o) as [subs|] eqn:Hpat;
      [|by intros ?%elem_of_nil].
    simpl. intros Hin.
    destruct (wf_registered s Hwf _ _ _ Hpat Hin) as (o' & Ho' & _ & Hc).
    congruence.
  - intros pat subs Hpat Hin.
    destruct (wf_registered s Hwf _ _ _ Hpat Hin) as (o' & Ho' & Hp & _).
    congruence.
  - by destruct (wf_queue s Hwf _ _ Ho) as (? & _).
Qed.

Lemma registered_iff_handler_running_witness :
  let o := {| pattern := "user:1"; stream := [];
              events := make_chan queue_capacity |} in
  reachable two_subscribers
  ∧ heap two_subscribers !! 1 = Some o
  ∧ 1 ∈ map_index (subscribers two_subscribers) (pattern o).
Proof.
  intros o.
  assert (reachable two_subscribers) as H1.
  { exists [OpSubscribe (pb.SubscribeRequest.mk "user:");
            OpSubscribe (pb.SubscribeRequest.mk "user:1")].
    vm_compute. reflexivity. }
  assert (heap two_subscribers !! 1 = Some o) as H2 by reflexivity.
  split; [done|]. split; [done|].
  by apply (registered_iff_handler_running two_subscribers 1 o H1 H2).
Defined.

(** ** A handler that has returned *)

Lemma Subscribe_cleanup_other sub s s' sub' :
  Subscribe_cleanup sub s = Some s' → sub' ≠ sub →
  heap s' !! sub' = heap s !! sub'.
Proof.
  unfold Subscribe_cleanup. destruct (heap s !! sub) as [o|]; [|done].
  destruct (chan_close _); [|done]. intros [= <-] Hne. simpl.
  by rewrite list_lookup_insert_ne.
Qed.

Lemma Subscribe_turn_other sub c s r s' sub' :
  Subscribe_turn sub c s = Some (r, s') → sub' ≠ sub →
  heap s' !! sub' = heap s !! sub'.
Proof.
  unfold Subscribe_turn. destruct (heap s !! sub) as [o|]; [|done].
  destruct (closed (events o)); [done|].
  destruct c as [|msg|].
  - destruct (chan_recv _) as [[ev q]|]; [|done]. simpl.
    intros [= <- <-] Hne. simpl. by rewrite list_lookup_insert_ne.
  - destruct (chan_recv _) as [[ev q]|]; [|done]. simpl.
    destruct (Subscribe_cleanup _ _) as [s1|] eqn:Hs1; [|done].
    simpl. intros [= <- <-] Hne.
    rewrite (Subscribe_cleanup_other _ _ _ _ Hs1 Hne). simpl.
    by rewrite list_lookup_insert_ne.
  - destruct (Subscribe_cleanup _ _) as [s1|] eqn:Hs1; [|done].
    simpl. intros [= <- <-] Hne. by eapply Subscribe_cleanup_other.
Qed.

Lemma exec_keeps_closed o s s' sub ob :
  wf s → exec o s = Some s' →
  heap s !! sub = Some ob → closed (events ob) = true →
  heap s' !! sub = Some ob.
Proof.
  intros Hwf Hexec Hsub Hc.
  destruct o as [req|now req|req|sub' c]; simpl in Hexec.
  - by injection Hexec as <-.
  - destruct (Set_ now req s) as [[r s1]|] eqn:Hset; [|done].
    injection Hexec as <-.
    destruct (decide (pb.SetRequest.Key req = "")) as [He|He].
    { rewrite (Set_empty_key _ _ _ He) in Hset. by injection Hset as <- <-. }
    destruct (Set_spec now req s Hwf He)
      as (s2 & Hset' & _ & _ & _ & _ & Hheap).
    rewrite Hset in Hset'. injection Hset' as _ <-.
    rewrite Hheap, decide_False; [done|].
    intros (pat & subs & Hpat & Hin & _)%elem_of_targets_registry.
    destruct (wf_registered s Hwf _ _ _ Hpat Hin) as (o' & Ho' & _ & Hc').
    congruence.
  - injection Hexec as <-. unfold Subscribe_register.
    case_decide; [done|]. simpl. by apply lookup_app_l_Some.
  - destruct (Subscribe_turn sub' c s) as [[r s1]|] eqn:Hturn; [|done].
    injection Hexec as <-.
    destruct (decide (sub = sub')) as [->|Hne].
    + unfold Subscribe_turn in Hturn. by rewrite Hsub, Hc in Hturn.
    + by rewrite (Subscribe_turn_other _ _ _ _ _ _ Hturn Hne).
Qed.

(** X5. Once a handler has returned (its queue is closed), no operation
    of a run changes its subscriber object any more, and it is registered
    under no pattern: later writes are not offered to it. *)
Theorem returned_handler_is_left_alone (ops : list op)
    (s s' : KVStoreService) (sub : loc) (o : subscriber) :
  reachable s → heap s !! sub = Some o → closed (events o) = true →
  run ops s = Some s' →
  heap s' !! sub = Some o
  ∧ ∀ pat subs, subscribers s' !! pat = Some subs → sub ∉ subs.
Proof.
  intros Hwf%reachable_wf Ho Hc Hrun.
  assert (wf s' ∧ heap s' !! sub = Some o) as [Hwf' Ho'].
  { revert s Hwf Ho Hrun. induction ops as [|op ops IH]; intros s Hwf Ho; simpl.
    - by intros [= <-].
    - destruct (exec op s) as [s1|] eqn:Hexec; [|done].
      apply IH; [by eapply wf_exec|by eapply exec_keeps_closed]. }
  split; [done|]. intros pat subs Hpat Hin.
  destruct (wf_registered s' Hwf' _ _ _ Hpat Hin) as (o' & Ho'' & _ & Hc').
  congruence.
Qed.

Lemma returned_handler_is_left_alone_witness :
  let o := {| pattern := "user:"; stream := [];
              events := {| buf := []; cap := queue_capacity;
                           closed := true |} |} in
  ∃ s s',
    run [OpSubscribe (pb.SubscribeRequest.mk "user:");
         OpTurn 0 ContextDone] NewKVStoreService = Some s
    ∧ heap s !! 0 = Some o
    ∧ run [OpSet 3 (pb.SetRequest.mk "user:1" "a");
           OpSubscribe (pb.SubscribeRequest.mk "user:");
           OpSet 4 (pb.SetRequest.mk "user:2" "b")] s = Some s'
    ∧ heap s' !! 0 = Some o.
Proof.
  intros o. eexists _, _.
  split; [vm_compute; reflexivity|].
  split; [vm_compute; reflexivity|].
  split; [vm_compute; reflexivity|].
  eapply (returned_handler_is_left_alone
            [OpSet 3 (pb.SetRequest.mk "user:1" "a");
             OpSubscribe (pb.SubscribeRequest.mk "user:");
             OpSet 4 (pb.SetRequest.mk "user:2" "b")]).
  - exists [OpSubscribe (pb.SubscribeRequest.mk "user:"); OpTurn 0 ContextDone].
    vm_compute; reflexivity.
  - vm_compute; reflexivity.
  - reflexivity.
  - vm_compute; reflexivity.
Defined.

(** ** The ways a handler returns *)

Lemma Subscribe_cleanup_spec sub o s :
  wf s → live_registered s →
  heap s !! sub = Some o → closed (events o) = false →
  ∃ s',
    Subscribe_cleanup sub s = Some s'
    ∧ heap s' !! sub
      = Some (set_events {| buf := buf (events o); cap := cap (events o);
                            closed := true |} o)
    ∧ (∀ sub', sub' ≠ sub → heap s' !! sub' = heap s !! sub')
    ∧ store s' = store s
    ∧ (∀ pat subs, subscribers s' !! pat = Some subs → sub ∉ subs)
    ∧ S (length (map_index (subscribers s') (pattern o)))
      = length (map_index (subscribers s) (pattern o))
    ∧ (map_index (subscribers s) (pattern o) = [sub] →
       subscribers s' !! pattern o = None)
    ∧ (∀ other, other ≠ sub →
         other ∈ map_index (subscribers s) (pattern o) →
         other ∈ map_index (subscribers s') (pattern o))
    ∧ (∀ pat, pat ≠ pattern o → subscribers s' !! pat = subscribers s !! pat).
Proof.
  intros Hwf Hlive Ho Hc. unfold Subscribe_cleanup, chan_close.
  rewrite Ho, Hc. eexists. split; [done|]. simpl.
  split_and!.
  - by rewrite list_lookup_insert_eq by (by eapply lookup_lt_Some).
  - intros sub' Hne. by rewrite list_lookup_insert_ne.
  - done.
  - by apply (removeSubscriber_unregistered sub o s).
  - rewrite map_index_remove_from. apply remove_first_length. by apply Hlive.
  - intros Hone. rewrite remove_from_lookup_eq, Hone, remove_first_cons.
    by rewrite decide_True.
  - intros other Hne Hin. rewrite map_index_remove_from.
    by apply elem_of_remove_first_ne.
  - intros pat Hne. by apply remove_from_lookup_ne.
Qed.



(** X7. When [stream.Send] fails, the handler returns the error of the
    transport; the event it had received is in neither the queue nor the
    stream, the subscriber is unregistered and its queue closed, and the
    store and the other subscribers stay as they were. *)
Theorem send_failure_unregisters (s : KVStoreService) (sub : loc)
    (o : subscriber) (ev : pb.ChangeEvent.t) (q : list pb.ChangeEvent.t)
    (msg : string) :
  reachable s → heap s !! sub = Some o → closed (events o) = false →
  buf (events o) = ev :: q →
  ∃ s',
    Subscribe_turn sub (SendErr msg) s = Some (Err (transport_error msg), s')
    ∧ heap s' !! sub
      = Some {| pattern := pattern o; stream := stream o;
                events := {| buf := q; cap := cap (events o);
                             closed := true |} |}
    ∧ (∀ sub', sub' ≠ sub → heap s' !! sub' = heap s !! sub')
    ∧ store s' = store s
    ∧ (∀ pat subs, subscribers s' !! pat = Some subs → sub ∉ subs)
    ∧ (∀ other, other ≠ sub →
         other ∈ map_index (subscribers s) (pattern o) →
         other ∈ map_index (subscribers s') (pattern o))
    ∧ (∀ pat, pat ≠ pattern o → subscribers s' !! pat = subscribers s !! pat).
Proof.
  intros Hreach Ho Hc Hbuf.
  pose proof (reachable_wf s Hreach) as Hwf.
  pose proof (reachable_live s Hreach) as Hlive.
  set (o1 := set_events {| buf := q; cap := cap (events o);
                           closed := false |} o).
  set (s1 := set_heap (λ h, <[sub := o1]> h) s).
  assert (wf s1) as Hwf1.
  { apply (wf_update sub o); [done..| |by left].
    simpl. rewrite Hbuf. simpl. lia. }
  assert (live_registered s1) as Hlive1
    by (by apply (live_registered_update sub o)).
  assert (heap s1 !! sub = Some o1) as Ho1.
  { simpl. by rewrite list_lookup_insert_eq by (by eapply lookup_lt_Some). }
  destruct (Subscribe_cleanup_spec sub o1 s1 Hwf1 Hlive1 Ho1 eq_refl)
    as (s' & Hclean & Hsub & Hoth & Hst & Hunreg & _ & _ & Hkeep & Hpat).
  exists s'. split_and!; try done.
  - unfold Subscribe_turn, chan_recv. rewrite Ho, Hc, Hbuf. simpl.
    fold o1. fold s1. by rewrite Hclean.
  - intros sub' Hne. rewrite (Hoth _ Hne). simpl.
    by rewrite list_lookup_insert_ne.
Qed.

Lemma send_failure_unregisters_witness :
  let ev := pb.ChangeEvent.mk pb.ChangeEvent_SET "user:1" "a" 3 in
  let o := {| pattern := "user:"; stream := [];
              events := {| buf := [ev]; cap := queue_capacity;
                           closed := false |} |} in
  let s := {| store := {[ "user:1"%string := any_string "a" ]};
              subscribers := {[ "user:"%string := [0] ]};
              subID := 0;
              heap := [o] |} in
  reachable s
  ∧ heap s !! 0 = Some o
  ∧ ∃ s',
      Subscribe_turn 0 (SendErr "broken pipe") s
      = Some (Err (transport_error "broken pipe"), s')
      ∧ heap s' !! 0
        = Some {| pattern := "user:"; stream := [];
                  events := {| buf := []; cap := queue_capacity;
                               closed := true |} |}.
Proof.
  intros ev o s.
  assert (reachable s) as H1.
  { exists [OpSubscribe (pb.SubscribeRequest.mk "user:");
            OpSet 3 (pb.SetRequest.mk "user:1" "a")].
    vm_compute; reflexivity. }
  assert (heap s !! 0 = Some o) as H2 by reflexivity.
  destruct (send_failure_unregisters s 0 o ev [] "broken pipe"
              H1 H2 eq_refl eq_refl) as (s' & Hturn & Hheap & _).
  split_and!; [done..|]. by exists s'.
Defined.

(** ** Delivery in publish order *)

Lemma turns_SendOk j sub o s :
  heap s !! sub = Some o → closed (events o) = false →
  j ≤ length (buf (events o)) →
  ∃ s',
    run (replicate j (OpTurn sub SendOk)) s = Some s'
    ∧ heap s' !! sub
      = Some {| pattern := pattern o;
                stream := stream o ++ take j (buf (events o));
                events := {| buf := drop j (buf (events o));
                             cap := cap (events o);
                             closed := false |} |}
    ∧ store s' = store s ∧ subscribers s' = subscribers s.
Proof.
  revert s o. induction j as [|j IH]; intros s o Ho Hc Hj.
  - exists s. simpl. split_and!; [done| |done..].
    rewrite Ho, app_nil_r. destruct o as [p st [b c cl]]. simpl in *.
    by rewrite Hc.
  - destruct (buf (events o)) as [|ev q] eqn:Hbuf; [simpl in Hj; lia|].
    simpl in Hj.
    set (o1 := {| pattern := pattern o; stream := stream o ++ [ev];
                  events := {| buf := q; cap := cap (events o);
                               closed := false |} |}).
    destruct (IH (set_heap (λ h, <[sub := o1]> h) s) o1)
      as (s' & Hrun & Hheap & Hst & Hsubs); [|done|simpl; lia|].
    { simpl. by rewrite list_lookup_insert_eq by (by eapply lookup_lt_Some). }
    exists s'. split_and!;
      [|rewrite Hheap; subst o1; simpl; by rewrite <- app_assoc|done..].
    simpl. unfold Subscribe_turn, chan_recv. rewrite Ho, Hc, Hbuf. simpl.
    exact Hrun.
Qed.

(** X8. Events reach the stream in the order of the writes: after [n]
    matching writes (no more than the capacity) to a subscriber with an
    empty queue and then [j] successful sends, the stream has grown by the
    first [j] events in write order and the queue holds the rest; when all
    [n] have been sent the loop has nothing to receive. *)
Theorem events_reach_the_stream_in_order (s : KVStoreService) (pat : string)
    (subs : list loc) (sub : loc) (o : subscriber)
    (reqs : list (Z * pb.SetRequest.t)) (j : nat) :
  reachable s →
  subscribers s !! pat = Some subs → sub ∈ subs →
  heap s !! sub = Some o → buf (events o) = [] →
  Forall (λ r, pb.SetRequest.Key r.2 ≠ ""
               ∧ HasPrefix (pb.SetRequest.Key r.2) (pattern o) = true) reqs →
  length reqs ≤ queue_capacity → j ≤ length reqs →
  ∃ s1 s2,
    Set_all reqs s = Some (replicate (length reqs) (Ok key_stored), s1)
    ∧ run (replicate j (OpTurn sub SendOk)) s1 = Some s2
    ∧ heap s2 !! sub
      = Some {| pattern := pattern o;
                stream := stream o
                          ++ take j (map (λ r, change_event r.1 r.2) reqs);
                events := {| buf := drop j (map (λ r, change_event r.1 r.2) reqs);
                             cap := queue_capacity;
                             closed := false |} |}
    ∧ (j = length reqs →
       Subscribe_turn sub SendOk s2 = None
       ∧ Subscribe_turn sub (SendErr "") s2 = None).
Proof.
  intros Hreach Hpat Hsub Ho Hbuf Hall Hlen Hj.
  destruct (Set_all_fresh_queue reqs s pat subs sub o
              (reachable_wf s Hreach) Hpat Hsub Ho Hbuf Hall)
    as (s1 & Hrun1 & Hheap1).
  rewrite take_ge in Hheap1 by (rewrite length_map; lia).
  destruct (turns_SendOk j sub _ s1 Hheap1 eq_refl)
    as (s2 & Hrun2 & Hheap2 & _); [simpl; rewrite length_map; lia|].
  simpl in Hheap2.
  exists s1, s2. split_and!; [done..|].
  intros ->. unfold Subscribe_turn, chan_recv. rewrite Hheap2. simpl.
  rewrite drop_ge by (by rewrite length_map). done.
Qed.

Lemma events_reach_the_stream_in_order_witness :
  let o := {| pattern := "user:"; stream := [];
              events := make_chan queue_capacity |} in
  let reqs := [(1%Z, pb.SetRequest.mk "user:1" "a");
               (2%Z, pb.SetRequest.mk "user:2" "b");
               (3%Z, pb.SetRequest.mk "user:1" "c")] in
  reachable one_subscriber
  ∧ ∃ s1 s2,
      Set_all reqs one_subscriber
      = Some (replicate (length reqs) (Ok key_stored), s1)
      ∧ run (replicate 2 (OpTurn 0 SendOk)) s1 = Some s2
      ∧ heap s2 !! 0
        = Some {| pattern := "user:";
                  stream := [pb.ChangeEvent.mk pb.ChangeEvent_SET "user:1" "a" 1;
                             pb.ChangeEvent.mk pb.ChangeEvent_SET "user:2" "b" 2];
                  events := {| buf := [pb.ChangeEvent.mk pb.ChangeEvent_SET
                                         "user:1" "c" 3];
                               cap := queue_capacity; closed := false |} |}.
Proof.
  intros o reqs.
  assert (reachable one_subscriber) as H1.
  { exists [OpSubscribe (pb.SubscribeRequest.mk "user:")].
    vm_compute. reflexivity. }
  split; [done|].
  assert (subscribers one_subscriber !! "user:"%string = Some [0]) as H2
    by (vm_compute; reflexivity).
  assert (Forall (λ r, pb.SetRequest.Key r.2 ≠ ""
                       ∧ HasPrefix (pb.SetRequest.Key r.2) (pattern o) = true)
                 reqs) as H3.
  { repeat constructor; simpl; try discriminate; vm_compute; reflexivity. }
  assert (length reqs ≤ queue_capacity) as H4 by (vm_compute; lia).
  assert (2 ≤ length reqs) as H5 by (simpl; lia).
  destruct (events_reach_the_stream_in_order one_subscriber "user:" [0] 0 o
              reqs 2 H1 H2 (list_elem_of_here _ _) eq_refl eq_refl H3 H4 H5)
    as (s1 & s2 & Hset & Hrun & Hheap & _).
  exists s1, s2. split; [exact Hset|]. split; [exact Hrun|]. exact Hheap.
Defined.

(** X9. [notifySubscribers] gives the same state and the same count
    (or the same panic) whatever order the [range] over the registry
    takes. *)
Theorem fan_out_ignores_map_order (ev : pb.ChangeEvent.t) (s : KVStoreService)
    (entries : list (string * list loc)) :
  entries ≡ₚ map_to_list (subscribers s) →
  notifySubscribers ev s
  = match notify_range ev entries (heap s, 0%Z) with
    | None => None
    | Some (h, notifiedCount) => Some (set_heap (λ _, h) s, notifiedCount)
    end.
Proof.
  intros Hperm. unfold notifySubscribers.
  by rewrite (notify_range_Permutation ev _ _ _ Hperm).
Qed.

Lemma fan_out_ignores_map_order_witness :
  let ev := pb.ChangeEvent.mk pb.ChangeEvent_SET "user:123" "v" 1 in
  [("user:"%string, [0]); ("user:1"%string, [1])]
    ≡ₚ map_to_list (subscribers two_subscribers)
  ∧ notifySubscribers ev two_subscribers
    = match notify_range ev [("user:"%string, [0]); ("user:1"%string, [1])]
              (heap two_subscribers, 0%Z) with
      | None => None
      | Some (h, notifiedCount) =>
          Some (set_heap (λ _, h) two_subscribers, notifiedCount)
      end.
Proof.
  intros ev.
  assert ([("user:"%string, [0]); ("user:1"%string, [1])]
            ≡ₚ map_to_list (subscribers two_subscribers)) as H1.
  { replace (map_to_list (subscribers two_subscribers))
      with [("user:1"%string, [1]); ("user:"%string, [0])]
      by (vm_compute; reflexivity).
    apply Permutation_swap. }
  split; [exact H1|].
  exact (fan_out_ignores_map_order ev two_subscribers _ H1).
Defined.

(** ** Why the deferred function removes before it closes *)

Lemma notify_subs_closed ev ps h n sub o :
  sub ∈ ps → h !! sub = Some o → closed (events o) = true →
  notify_subs ev ps (h, n) = None.
Proof.
  revert h n. induction ps as [|p ps IH]; intros h n Hin Ho Hc.
  - by apply elem_of_nil in Hin.
  - simpl. destruct (decide (p = sub)) as [->|Hne].
    + unfold notify_one. simpl. rewrite Ho. unfold chan_trySend. by rewrite Hc.
    + apply elem_of_cons in Hin as [->|Hin]; [done|].
      unfold notify_one. simpl.
      destruct (h !! p) as [o'|]; [|done].
      destruct (chan_trySend ev (events o')) as [[c sent]|]; [|done].
      apply IH; [done| |done]. by rewrite list_lookup_insert_ne.
Qed.

(** X10. If a subscriber with a closed queue were still registered under
    a prefix of the key, [Set] would panic on the send; no state of a run is
    like that, because the deferred function removes the subscriber before
    it closes the queue. *)
Theorem publish_to_closed_queue_panics (s : KVStoreService) (pat : string)
    (subs : list loc) (sub : loc) (o : subscriber) (now : Z)
    (req : pb.SetRequest.t) :
  subscribers s !! pat = Some subs → sub ∈ subs →
  heap s !! sub = Some o → closed (events o) = true →
  pb.SetRequest.Key req ≠ "" → HasPrefix (pb.SetRequest.Key req) pat = true →
  Set_ now req s = None ∧ ¬ reachable s.
Proof.
  intros Hpat Hin Ho Hc Hkey Hm. split.
  - unfold Set_. rewrite decide_False by done.
    unfold notifySubscribers. rewrite notify_range_targets.
    rewrite (notify_subs_closed _ _ _ _ sub o); [done| |done..].
    apply elem_of_targets. exists pat, subs.
    split_and!; [by apply elem_of_map_to_list|done..].
  - intros Hwf%reachable_wf.
    destruct (wf_registered s Hwf _ _ _ Hpat Hin) as (o' & Ho' & _ & Hc').
    congruence.
Qed.

Lemma publish_to_closed_queue_panics_witness :
  let o := {| pattern := "user:"; stream := [];
              events := {| buf := []; cap := queue_capacity;
                           closed := true |} |} in
  let s := {| store := ∅;
              subscribers := {[ "user:"%string := [0] ]};
              subID := 0;
              heap := [o] |} in
  subscribers s !! "user:"%string = Some [0]
  ∧ HasPrefix "user:1" "user:" = true
  ∧ Set_ 1 (pb.SetRequest.mk "user:1" "a") s = None.
Proof.
  intros o s.
  assert (subscribers s !! "user:"%string = Some [0]) as H1
    by (vm_compute; reflexivity).
  assert (HasPrefix "user:1" "user:" = true) as H2 by (vm_compute; reflexivity).
  assert (pb.SetRequest.Key (pb.SetRequest.mk "user:1" "a") ≠ "") as H3
    by discriminate.
  split; [exact H1|]. split; [exact H2|].
  exact (proj1 (publish_to_closed_queue_panics s "user:" [0] 0 o 1
                  (pb.SetRequest.mk "user:1" "a")
                  H1 (list_elem_of_here _ _) eq_refl eq_refl H3 H2)).
Defined.

(** ** The two revisions of the service *)

Lemma exec_StoreOnly o s s' :
  exec o s = Some s' → store s' = StoreOnly_exec o (store s).
Proof.
  destruct o as [req|now req|req|sub c]; simpl.
  - by intros [= <-].
  - destruct (Set_ now req s) as [[r s1]|] eqn:Hset; [|done].
    simpl. intros [= <-]. by rewrite (StoreOnly_Set _ _ _ _ _ Hset).
  - intros [= <-]. by rewrite Subscribe_register_store.
  - destruct (Subscribe_turn sub c s) as [[r s1]|] eqn:Hturn; [|done].
    simpl. intros [= <-]. by rewrite (Subscribe_turn_store _ _ _ _ _ Hturn).
Qed.

(** X11. Along any run the store is what the revision without registry
    computes from the same operations, and [Get] and [Set] answer as in
    that revision: subscriptions and deliveries never touch stored data. *)
Theorem registry_never_touches_the_store (ops : list op)
    (s s' : KVStoreService) :
  run ops s = Some s' →
  store s' = StoreOnly_run ops (store s)
  ∧ (∀ req, Get req s' = StoreOnly.Get req (StoreOnly_run ops (store s)))
  ∧ (∀ now req r s2,
       Set_ now req s' = Some (r, s2) →
       StoreOnly.Set_ req (StoreOnly_run ops (store s)) = (r, store s2)).
Proof.
  intros Hrun.
  assert (store s' = StoreOnly_run ops (store s)) as Hst.
  { revert s Hrun. induction ops as [|o ops IH]; intros s; simpl.
    - by intros [= <-].
    - destruct (exec o s) as [s1|] eqn:Hexec; [|done].
      intros Hrun. rewrite (IH _ Hrun). unfold StoreOnly_run. simpl.
      by rewrite (exec_StoreOnly _ _ _ Hexec). }
  split_and!.
  - done.
  - intros req. by rewrite <- Hst.
  - intros now req r s2 Hset. rewrite <- Hst. by apply StoreOnly_Set in Hset.
Qed.

Lemma registry_never_touches_the_store_witness :
  ∃ s',
    run [OpSubscribe (pb.SubscribeRequest.mk "user:");
         OpSet 1 (pb.SetRequest.mk "user:1" "a");
         OpTurn 0 SendOk;
         OpSet 2 (pb.SetRequest.mk "" "b");
         OpTurn 0 ContextDone] NewKVStoreService = Some s'
    ∧ store s' = (StoreOnly.Set_ (pb.SetRequest.mk "user:1" "a") ∅).2.
Proof.
  eexists. split; [vm_compute; reflexivity|].
  refine (eq_trans (proj1 (registry_never_touches_the_store
            [OpSubscribe (pb.SubscribeRequest.mk "user:");
             OpSet 1 (pb.SetRequest.mk "user:1" "a");
             OpTurn 0 SendOk;
             OpSet 2 (pb.SetRequest.mk "" "b");
             OpTurn 0 ContextDone] NewKVStoreService _ _)) _).
  - vm_compute; reflexivity.
  - vm_compute; reflexivity.
Defined.

(** X12. In the revision without registry, a [Set] with a non-empty key
    succeeds and stores the value, the [Get] of that key then answers the
    value with [found], the [Get] of any other key answers as before, and
    the [Get] of an absent key answers [("", false)]. *)
Theorem StoreOnly_Get_after_Set (k v : string) (st : gmap string any) :
  k ≠ "" →
  StoreOnly.Set_ (pb.SetRequest.mk k v) st
  = (Ok key_stored, <[k := any_string v]> st)
  ∧ StoreOnly.Get (pb.GetRequest.mk k)
      (StoreOnly.Set_ (pb.SetRequest.mk k v) st).2
    = Ok {| pb.GetResponse.Value := v; pb.GetResponse.Found := true |}
  ∧ (∀ k', k' ≠ k →
       StoreOnly.Get (pb.GetRequest.mk k')
         (StoreOnly.Set_ (pb.SetRequest.mk k v) st).2
       = StoreOnly.Get (pb.GetRequest.mk k') st)
  ∧ (st !! k = None →
     StoreOnly.Get (pb.GetRequest.mk k) st
     = Ok {| pb.GetResponse.Value := ""; pb.GetResponse.Found := false |}).
Proof.
  intros Hk. unfold StoreOnly.Set_, StoreOnly.Get. simpl.
  rewrite !decide_False by done. simpl. split_and!.
  - done.
  - by rewrite lookup_insert_eq.
  - intros k' Hne. case_decide; [done|]. by rewrite lookup_insert_ne.
  - by intros ->.
Qed.

Lemma StoreOnly_Get_after_Set_witness :
  "user:1"%string ≠ ""
  ∧ StoreOnly.Get (pb.GetRequest.mk "user:1")
      (StoreOnly.Set_ (pb.SetRequest.mk "user:1" "a") ∅).2
    = Ok {| pb.GetResponse.Value := "a"; pb.GetResponse.Found := true |}.
Proof.
  assert ("user:1"%string ≠ "") as Hk by discriminate.
  split; [exact Hk|].
  exact (proj1 (proj2 (StoreOnly_Get_after_Set "user:1" "a" ∅ Hk))).
Defined.

(** ** The configuration of the server *)

(** X13. [getEnv] returns the value of the variable when it is set and
    not empty, and the default when it is unset or set to the empty
    string; with a non-empty default the result is never empty, so the
    server never listens on [":"] and listens on [":50051"] when
    [GRPC_PORT] is unset or empty. *)
Theorem getEnv_falls_back_on_default (env : gmap string string)
    (key defaultValue : string) :
  (∀ value, env !! key = Some value → value ≠ "" →
     getEnv env key defaultValue = value)
  ∧ (env !! key = None ∨ env !! key = Some "" →
     getEnv env key defaultValue = defaultValue)
  ∧ (defaultValue ≠ "" → getEnv env key defaultValue ≠ "")
  ∧ listen_address env ≠ ":"
  ∧ (env !! "GRPC_PORT"%string = None ∨ env !! "GRPC_PORT"%string = Some "" →
     listen_address env = ":50051").
Proof.
  assert (∀ d, d ≠ "" → getEnv env key d ≠ "") as Hne.
  { intros d Hd. unfold getEnv. by case_decide. }
  assert (∀ k d, env !! k = None ∨ env !! k = Some "" → getEnv env k d = d)
    as Hdef.
  { intros k d Hk. unfold getEnv, os_Getenv.
    destruct Hk as [-> | ->]; cbn [default];
      (case_decide as H; [by destruct H|done]). }
  split_and!.
  - intros value Hv Hvne. unfold getEnv, os_Getenv. rewrite Hv. simpl.
    by rewrite decide_True.
  - apply Hdef.
  - apply Hne.
  - unfold listen_address, getEnv.
    case_decide as Hv.
    + destruct (os_Getenv env "GRPC_PORT"); [done|discriminate].
    + discriminate.
  - intros Hk. unfold listen_address. by rewrite (Hdef _ _ Hk).
Qed.

Lemma getEnv_falls_back_on_default_witness :
  let env : gmap string string :=
    {[ "GRPC_PORT"%string := ""%string; "HTTP_PORT"%string := "9090"%string ]} in
  getEnv env "HTTP_PORT" defaultHTTPPort = "9090"
  ∧ getEnv env "GRPC_PORT" defaultGRPCPort = "50051"
  ∧ listen_address env = ":50051".
Proof.
  intros env.
  destruct (getEnv_falls_back_on_default env "HTTP_PORT" defaultHTTPPort)
    as (Hset & _).
  destruct (getEnv_falls_back_on_default env "GRPC_PORT" defaultGRPCPort)
    as (_ & Hdef & _ & _ & Hlisten).
  split_and!.
  - apply Hset; [vm_compute; reflexivity|discriminate].
  - apply Hdef. right. vm_compute; reflexivity.
  - apply Hlisten. right. vm_compute; reflexivity.
Defined.

(** ** The command-line client *)

(** X14. The client never sends a request with an empty key or pattern:
    what [executeGet], [executeSet] and [executeSubscribe] do depends only
    on the answers to requests with a non-empty argument, and with an
    empty one they die in [log.Fatal] with the flag's message. *)
Theorem client_sends_no_empty_argument (Error : error → string)
    (Format : Z → string)
    (ChangeType_String : pb.ChangeEvent_ChangeType → string)
    (c1 c2 : KeyValueStoreClient) :
  (∀ req, pb.GetRequest.Key req ≠ "" → client_Get c1 req = client_Get c2 req) →
  (∀ req, pb.SetRequest.Key req ≠ "" → client_Set c1 req = client_Set c2 req) →
  (∀ req, pb.SubscribeRequest.KeyPattern req ≠ "" →
     client_Subscribe c1 req = client_Subscribe c2 req) →
  (∀ key, executeGet Error c1 key = executeGet Error c2 key)
  ∧ (∀ key value, executeSet Error c1 key value = executeSet Error c2 key value)
  ∧ (∀ pattern,
       executeSubscribe Error Format ChangeType_String c1 pattern
       = executeSubscribe Error Format ChangeType_String c2 pattern)
  ∧ executeGet Error c1 ""
    = Fatal [] "Error: -key flag is required for get operation"
  ∧ (∀ value, executeSet Error c1 "" value
              = Fatal [] "Error: -key flag is required for set operation")
  ∧ executeSubscribe Error Format ChangeType_String c1 ""
    = Fatal [] "Error: -pattern flag is required for subscribe operation".
Proof.
  intros HG HS HSub. split_and!; try done.
  - intros key. unfold executeGet. case_decide; [done|]. by rewrite HG.
  - intros key value. unfold executeSet. case_decide; [done|]. by rewrite HS.
  - intros pattern. unfold executeSubscribe. case_decide; [done|].
    by rewrite HSub.
Qed.

Lemma client_sends_no_empty_argument_witness :
  let c1 := {| client_Get := λ _, Ok (pb.GetResponse.mk "a" true);
               client_Set := λ _, Ok key_stored;
               client_Subscribe := λ _, Ok [Recv_EOF] |} in
  let c2 := {| client_Get := λ req,
                 if decide (pb.GetRequest.Key req = "")
                 then Err (transport_error "unreachable")
                 else Ok (pb.GetResponse.mk "a" true);
               client_Set := λ _, Ok key_stored;
               client_Subscribe := λ _, Ok [Recv_EOF] |} in
  executeGet (λ _, "error"%string) c1 "" = executeGet (λ _, "error"%string) c2 ""
  ∧ executeGet (λ _, "error"%string) c1 "user:1"
    = executeGet (λ _, "error"%string) c2 "user:1".
Proof.
  intros c1 c2.
  assert (∀ req, pb.GetRequest.Key req ≠ "" →
            client_Get c1 req = client_Get c2 req) as H1.
  { intros req Hreq. simpl. by rewrite decide_False. }
  assert (∀ req, pb.SetRequest.Key req ≠ "" →
            client_Set c1 req = client_Set c2 req) as H2 by reflexivity.
  assert (∀ req, pb.SubscribeRequest.KeyPattern req ≠ "" →
            client_Subscribe c1 req = client_Subscribe c2 req) as H3
    by reflexivity.
  destruct (client_sends_no_empty_argument (λ _, "error"%string)
              (λ _, "time"%string) (λ _, "SET"%string) c1 c2 H1 H2 H3)
    as (HG & _).
  split; apply HG.
Defined.

(** X15. When the [Set] of the client is served by the service in a state
    of a run and its [Get] is served after any operations that do not write
    the key, [executeSet] prints the success lines and [executeGet] prints
    ["Key found"] with the value that was written. *)
Theorem client_reads_back_what_it_wrote (Error : error → string)
    (s s1 s2 : KVStoreService) (k v : string) (now : Z) (ops : list op)
    (r : result pb.SetResponse.t) (cS cG : KeyValueStoreClient) :
  reachable s → k ≠ "" →
  Set_ now (pb.SetRequest.mk k v) s = Some (r, s1) →
  client_Set cS (pb.SetRequest.mk k v) = r →
  run ops s1 = Some s2 → Forall (λ o, ¬ writes_key k o) ops →
  client_Get cG (pb.GetRequest.mk k) = Get (pb.GetRequest.mk k) s2 →
  executeSet Error cS k v
  = Returned ["Key stored successfully" +:+ nl;
              "  Key:   " +:+ k +:+ nl;
              "  Value: " +:+ v +:+ nl;
              "  Message: key stored successfully" +:+ nl]
  ∧ executeGet Error cG k
    = Returned ["Key found" +:+ nl;
                "  Key:   " +:+ k +:+ nl;
                "  Value: " +:+ v +:+ nl].
Proof.
  intros Hreach Hk Hset HcS Hrun Hops HcG.
  destruct (Set_spec now (pb.SetRequest.mk k v) s (reachable_wf s Hreach) Hk)
    as (s1' & Hset' & _ & Hst & _).
  rewrite Hset in Hset'. injection Hset' as -> <-.
  pose proof (run_store_other k _ _ _ Hrun Hops) as Hs2.
  rewrite Hst in Hs2. simpl in Hs2. rewrite lookup_insert_eq in Hs2.
  split.
  - unfold executeSet. by rewrite decide_False, HcS.
  - unfold executeGet. rewrite decide_False, HcG by done.
    by rewrite (Get_stored k v s2 Hk Hs2).
Qed.

Lemma client_reads_back_what_it_wrote_witness :
  let cS := {| client_Get := λ _, Err (transport_error "unused");
               client_Set := λ _, Ok key_stored;
               client_Subscribe := λ _, Err (transport_error "unused") |} in
  let cG := {| client_Get := λ _, Ok (pb.GetResponse.mk "Alice" true);
               client_Set := λ _, Err (transport_error "unused");
               client_Subscribe := λ _, Err (transport_error "unused") |} in
  executeSet (λ _, "error"%string) cS "user:123" "Alice"
  = Returned ["Key stored successfully" +:+ nl;
              "  Key:   user:123" +:+ nl;
              "  Value: Alice" +:+ nl;
              "  Message: key stored successfully" +:+ nl]
  ∧ executeGet (λ _, "error"%string) cG "user:123"
    = Returned ["Key found" +:+ nl;
                "  Key:   user:123" +:+ nl;
                "  Value: Alice" +:+ nl].
Proof.
  intros cS cG.
  assert (reachable one_subscriber) as H1.
  { exists [OpSubscribe (pb.SubscribeRequest.mk "user:")].
    vm_compute. reflexivity. }
  assert ("user:123"%string ≠ "") as Hk by discriminate.
  eapply (client_reads_back_what_it_wrote (λ _, "error"%string)
            one_subscriber _ _ "user:123" "Alice" 1
            [OpGet (pb.GetRequest.mk "user:123"); OpTurn 0 SendOk]
            (Ok key_stored) cS cG H1 Hk).
  - vm_compute; reflexivity.
  - reflexivity.
  - vm_compute; reflexivity.
  - repeat constructor; simpl; tauto.
  - vm_compute; reflexivity.
Defined.

(** X16. Against the service in a state of a run with a transport that
    delivers, the client never reports a failure: [executeGet] prints the
    value in the store or ["Key not found"], [executeSet] prints the
    success lines, and the only fatal exits are the client's own checks of
    empty flags. *)
Theorem client_never_reports_failure (Error : error → string)
    (s : KVStoreService) (now : Z) (c : KeyValueStoreClient) :
  reachable s →
  (∀ req, client_Get c req = Get req s) →
  (∀ req, ∃ s', Set_ now req s = Some (client_Set c req, s')) →
  (∀ key,
     executeGet Error c key
     = Fatal [] "Error: -key flag is required for get operation"
     ∨ executeGet Error c key = Returned ["Key not found: " +:+ key +:+ nl]
     ∨ ∃ v, store s !! key = Some (any_string v)
            ∧ executeGet Error c key
              = Returned ["Key found" +:+ nl;
                          "  Key:   " +:+ key +:+ nl;
                          "  Value: " +:+ v +:+ nl])
  ∧ (∀ key value,
       executeSet Error c key value
       = Fatal [] "Error: -key flag is required for set operation"
       ∨ executeSet Error c key value
         = Returned ["Key stored successfully" +:+ nl;
                     "  Key:   " +:+ key +:+ nl;
                     "  Value: " +:+ value +:+ nl;
                     "  Message: key stored successfully" +:+ nl]).
Proof.
  intros Hreach HG HS. pose proof (reachable_wf s Hreach) as Hwf. split.
  - intros key. unfold executeGet. case_decide as Hkey; [by left|].
    right. rewrite HG. unfold Get. simpl. rewrite decide_False by done.
    destruct (store s !! key) as [a|] eqn:Ha; [|by left].
    destruct (wf_strings s Hwf _ _ Ha) as [str ->]. right. by exists str.
  - intros key value. unfold executeSet. case_decide as Hkey; [by left|].
    right. destruct (HS (pb.SetRequest.mk key value)) as [s' Hset].
    destruct (Set_spec now (pb.SetRequest.mk key value) s Hwf Hkey)
      as (s1 & Hset' & _).
    rewrite Hset in Hset'. injection Hset' as -> _. done.
Qed.

Lemma client_never_reports_failure_witness :
  let c := {| client_Get := λ req, Get req one_subscriber;
              client_Set := λ req,
                if decide (pb.SetRequest.Key req = "")
                then Err (status_Error codes.InvalidArgument
                            "key cannot be empty")
                else Ok key_stored;
              client_Subscribe := λ _, Err (transport_error "unused") |} in
  reachable one_subscriber
  ∧ executeSet (λ _, "error"%string) c "k" "v"
    = Returned ["Key stored successfully" +:+ nl;
                "  Key:   k" +:+ nl;
                "  Value: v" +:+ nl;
                "  Message: key stored successfully" +:+ nl].
Proof.
  intros c.
  assert (reachable one_subscriber) as H1.
  { exists [OpSubscribe (pb.SubscribeRequest.mk "user:")].
    vm_compute. reflexivity. }
  split; [exact H1|].
  assert (∀ req, client_Get c req = Get req one_subscriber) as H2
    by reflexivity.
  assert (∀ req, ∃ s',
            Set_ 1 req one_subscriber = Some (client_Set c req, s')) as H3.
  { intros req. simpl. destruct (decide (pb.SetRequest.Key req = "")) as [He|He].
    - exists one_subscriber. by apply Set_empty_key.
    - destruct (Set_spec 1 req one_subscriber (reachable_wf _ H1) He)
        as (s' & Hset & _). by exists s'. }
  destruct (client_never_reports_failure (λ _, "error"%string)
              one_subscriber 1 c H1 H2 H3) as [_ HS].
  destruct (HS "k"%string "v"%string) as [Hfatal|Hok]; [|exact Hok].
  vm_compute in Hfatal. discriminate.
Defined.

Lemma receive_events (Error : error → string) (Format : Z → string)
    (ChangeType_String : pb.ChangeEvent_ChangeType → string)
    (evs : list pb.ChangeEvent.t) (rest : list recv) (out : list string) :
  receive Error Format ChangeType_String (map Recv_event evs ++ rest) out
  = receive Error Format ChangeType_String rest
      (out ++ concat (map (print_event Format ChangeType_String) evs)).
Proof.
  revert out. induction evs as [|ev evs IH]; intros out.
  - simpl. by rewrite app_nil_r.
  - cbn [map app receive concat]. rewrite IH. by rewrite <- app_assoc.
Qed.

(** X17. [executeSubscribe] prints its two header lines and then, for
    each event received and in the order received, the six lines of that
    event; it then waits for more, returns after ["Stream closed by
    server"] at end of stream, or dies with the receive error, in each case
    having printed every event received before. *)
Theorem subscription_prints_events_in_order (Error : error → string)
    (Format : Z → string)
    (ChangeType_String : pb.ChangeEvent_ChangeType → string)
    (c : KeyValueStoreClient) (pattern : string)
    (evs : list pb.ChangeEvent.t) (stream rest : list recv) :
  pattern ≠ "" →
  client_Subscribe c (pb.SubscribeRequest.mk pattern) = Ok stream →
  let printed :=
    ["Subscribed to pattern: " +:+ pattern +:+ nl;
     "Listening for changes (Ctrl+C to exit)" +:+ nl +:+ nl]
    ++ concat (map (print_event Format ChangeType_String) evs) in
  (stream = map Recv_event evs →
   executeSubscribe Error Format ChangeType_String c pattern = Waiting printed)
  ∧ (stream = map Recv_event evs ++ Recv_EOF :: rest →
     executeSubscribe Error Format ChangeType_String c pattern
     = Returned (printed ++ ["Stream closed by server" +:+ nl]))
  ∧ (∀ err, stream = map Recv_event evs ++ Recv_error err :: rest →
     executeSubscribe Error Format ChangeType_String c pattern
     = Fatal printed ("Error receiving event: " +:+ Error err))
  ∧ length printed = 2 + 6 * length evs.
Proof.
  intros Hp Hsub printed. subst printed. split_and!.
  - intros ->. unfold executeSubscribe. rewrite decide_False, Hsub by done.
    rewrite <- (app_nil_r (map Recv_event evs)). by rewrite receive_events.
  - intros ->. unfold executeSubscribe. rewrite decide_False, Hsub by done.
    by rewrite receive_events.
  - intros err ->. unfold executeSubscribe. rewrite decide_False, Hsub by done.
    by rewrite receive_events.
  - rewrite length_app. simpl. f_equal. f_equal.
    induction evs as [|ev evs IH]; [done|]. simpl. rewrite IH. lia.
Qed.

Lemma subscription_prints_events_in_order_witness :
  let ev1 := pb.ChangeEvent.mk pb.ChangeEvent_SET "user:1" "a" 1 in
  let ev2 := pb.ChangeEvent.mk pb.ChangeEvent_SET "user:2" "b" 2 in
  let c := {| client_Get := λ _, Err (transport_error "unused");
              client_Set := λ _, Err (transport_error "unused");
              client_Subscribe := λ _,
                Ok [Recv_event ev1; Recv_event ev2; Recv_EOF] |} in
  executeSubscribe (λ _, "error"%string) (λ _, "time"%string)
    (λ _, "SET"%string) c "user:"
  = Returned
      (["Subscribed to pattern: user:" +:+ nl;
        "Listening for changes (Ctrl+C to exit)" +:+ nl +:+ nl]
       ++ print_event (λ _, "time"%string) (λ _, "SET"%string) ev1
       ++ print_event (λ _, "time"%string) (λ _, "SET"%string) ev2
       ++ ["Stream closed by server" +:+ nl]).
Proof.
  intros ev1 ev2 c.
  assert ("user:"%string ≠ "") as Hp by discriminate.
  destruct (subscription_prints_events_in_order (λ _, "error"%string)
              (λ _, "time"%string) (λ _, "SET"%string) c "user:" [ev1; ev2]
              [Recv_event ev1; Recv_event ev2; Recv_EOF] [] Hp eq_refl)
    as (_ & HEOF & _).
  exact (HEOF eq_refl).
Defined.

(** X18. [main] exits with status 1 and the usage text, without creating
    a client, when [-op] is empty; it dies when the client cannot be
    created; and it returns normally only when the client was created, the
    operation is [get], [set] or [subscribe] and the key or pattern it
    needs is not empty, after printing the ["Connected to server"] line. *)
Theorem main_succeeds_only_on_valid_flags (Error : error → string)
    (Format : Z → string)
    (ChangeType_String : pb.ChangeEvent_ChangeType → string)
    (Usage : list string)
    (NewClient : string → result KeyValueStoreClient) (f : flags) :
  (operation f = "" →
   main Error Format ChangeType_String Usage NewClient f
   = Exited [] (("Error: -op flag is required" +:+ nl +:+ nl) :: Usage) 1)
  ∧ (∀ err, operation f ≠ "" → NewClient (serverAddr f) = Err err →
       main Error Format ChangeType_String Usage NewClient f
       = Fatal [] ("Failed to connect to server: " +:+ Error err))
  ∧ (∀ out,
       main Error Format ChangeType_String Usage NewClient f = Returned out →
       (∃ client, NewClient (serverAddr f) = Ok client)
       ∧ ((operation f = "get" ∧ key f ≠ "")
          ∨ (operation f = "set" ∧ key f ≠ "")
          ∨ (operation f = "subscribe" ∧ pattern_flag f ≠ ""))
       ∧ ∃ rest, out = ("Connected to server: " +:+ serverAddr f +:+ nl) :: rest).
Proof.
  split_and!.
  - intros Hop. unfold main. by rewrite decide_True.
  - intros err Hop Hnew. unfold main. by rewrite decide_False, Hnew.
  - intros out. unfold main. case_decide as Hop; [done|].
    destruct (NewClient (serverAddr f)) as [client|err]; [|done].
    intros Hret. split; [by exists client|].
    repeat case_decide.
    + unfold executeGet in Hret. case_decide; [done|].
      split; [by left|].
      destruct (client_Get client _) as [resp|]; [|done].
      destruct (pb.GetResponse.Found resp); injection Hret as <-; eauto.
    + unfold executeSet in Hret. case_decide; [done|].
      split; [by right; left|].
      destruct (client_Set client _) as [resp|]; [|done].
      destruct (pb.SetResponse.Success resp); injection Hret as <-; eauto.
    + unfold executeSubscribe in Hret. case_decide; [done|].
      split; [by right; right|].
      destruct (client_Subscribe client _) as [stream|]; [|done].
      simpl in Hret.
      destruct (receive Error Format ChangeType_String stream _) eqn:Hrcv;
        try done.
      injection Hret as <-. eauto.
    + done.
Qed.

Lemma main_succeeds_only_on_valid_flags_witness :
  let f := {| serverAddr := "localhost:50051"; operation := "";
              key := "k"; value := "v"; pattern_flag := "" |} in
  operation f = ""
  ∧ main (λ _, "error"%string) (λ _, "time"%string) (λ _, "SET"%string)
      ["usage"%string] (λ _, Err (transport_error "no route")) f
    = Exited [] [("Error: -op flag is required" +:+ nl +:+ nl); "usage"%string] 1.
Proof.
  intros f. split; [reflexivity|].
  apply (main_succeeds_only_on_valid_flags (λ _, "error"%string)
           (λ _, "time"%string) (λ _, "SET"%string) ["usage"%string]
           (λ _, Err (transport_error "no route")) f).
  reflexivity.
Defined.
